(** * DesignPatterns: a shallow embedding of the pattern demonstrations

    The repository is a set of independent TypeScript examples.  Each
    module below embeds one example: objects become records, object
    identity becomes an index into a store, [console.log] becomes an
    append to a list of lines, and a JavaScript exception becomes the
    [Throw] outcome of a small error monad. *)

From Stdlib Require Import ZArith Lia Ascii.
From stdpp Require Import base list strings pretty gmap.

(** ** Outcomes of a call

    A call either returns a value, throws, or (for the recursive walks
    over a linked chain, which need a step budget) runs out of fuel. *)

Inductive exn : Type :=
| TypeError (msg : string).

Inductive outcome (A : Type) : Type :=
| Return (a : A)
| Throw (e : exn)
| OutOfFuel.

Arguments Return {A} a.
Arguments Throw {A} e.
Arguments OutOfFuel {A}.

(** Object references are positions in a store. *)
Abbreviation ref := nat (only parsing).

(** The console is the list of lines printed so far. *)
Definition console := list string.

(** A computation that prints: it threads the console and may throw.
    Lines printed before a throw stay printed. *)
Definition IO (A : Type) : Type := console → outcome A * console.

Definition ret {A} (a : A) : IO A := λ out, (Return a, out).

Definition bind {A B} (m : IO A) (k : A → IO B) : IO B :=
  λ out,
    match m out with
    | (Return a, out') => k a out'
    | (Throw e, out') => (Throw e, out')
    | (OutOfFuel, out') => (OutOfFuel, out')
    end.

Definition throw {A} (e : exn) : IO A := λ out, (Throw e, out).

Definition console_log (line : string) : IO unit :=
  λ out, (Return tt, (out ++ [line])%list).

#[global] Instance IO_ret : MRet IO := @ret.
#[global] Instance IO_bind : MBind IO := λ A B k m, bind m k.

(** [Array.prototype.forEach] with a printing callback. *)
Fixpoint forEach {A} (l : list A) (f : A → IO unit) : IO unit :=
  match l with
  | [] => ret tt
  | x :: rest => f x ;; forEach rest f
  end.

(** Reading a property of [undefined]. *)
Definition read_of_undefined (prop : string) : exn :=
  TypeError ("Cannot read properties of undefined (reading '" +:+ prop +:+ "')").

(** ** Command (Behavioral/chainOfResponsibility.ts, second part) *)

Module Command.
Module Explanation.

(** [Receiver] has no fields; every instance behaves alike. *)
Record Receiver : Type := new_Receiver {}.

Definition doSomething (this : Receiver) (a : string) : IO unit :=
  console_log ("Receiver: Working on (" +:+ a +:+ ".)").

Definition doSomethingElse (this : Receiver) (b : string) : IO unit :=
  console_log ("Receiver: Also working on (" +:+ b +:+ ".)").

(** The two classes implementing [Command]. *)
Inductive Command : Type :=
| SimpleCommand (payload : string)
| ComplexCommand (receiver : Receiver) (a b : string).

Definition execute (c : Command) : IO unit :=
  match c with
  | SimpleCommand payload =>
      console_log
        ("SimpleCommand: See, I can do simple things like printing ("
           +:+ payload +:+ ")")
  | ComplexCommand receiver a b =>
      console_log
        "ComplexCommand: Complex stuff should be done by a receiver object." ;;
      doSomething receiver a ;;
      doSomethingElse receiver b
  end.

(** A slot that was never assigned holds [undefined], here [None]. *)
Record Invoker : Type := mkInvoker {
  onStart : option Command;
  onFinish : option Command
}.

Definition new_Invoker : Invoker := mkInvoker None None.

Definition setOnStart (this : Invoker) (command : Command) : Invoker :=
  mkInvoker (Some command) (onFinish this).

Definition setOnFinish (this : Invoker) (command : Command) : Invoker :=
  mkInvoker (onStart this) (Some command).

(** [return object.execute !== undefined]: the property read comes
    first, and on [undefined] it throws. *)
Definition isCommand (object : option Command) : IO bool :=
  match object with
  | None => throw (read_of_undefined "execute")
  | Some _ => ret true
  end.

(** [slot.execute()], the call made through a slot. *)
Definition run_slot (slot : option Command) : IO unit :=
  match slot with
  | None => throw (read_of_undefined "execute")
  | Some c => execute c
  end.

Definition doSomethingImportant (this : Invoker) : IO unit :=
  console_log "Invoker: Does anybody want something done before I begin?" ;;
  b ← isCommand (onStart this) ;
  (if b : bool then run_slot (onStart this) else ret tt) ;;
  console_log "Invoker: ...doing something really important..." ;;
  console_log "Invoker: Does anybody want something done after I finish?" ;;
  b ← isCommand (onFinish this) ;
  (if b : bool then run_slot (onFinish this) else ret tt).

Definition invoker : Invoker :=
  setOnFinish
    (setOnStart new_Invoker (SimpleCommand "Say Hi!"))
    (ComplexCommand new_Receiver "Send email" "Save report").

End Explanation.

(** *** The sales department example *)
Module Example.

Record Client : Type := new_Client {}.

Definition performSpecificClientActions (this : Client)
    (clientSpecificActions : list string) : IO unit :=
  forEach clientSpecificActions
    (λ action, console_log ("Action: " +:+ action +:+ " has been performed")).

Definition notifyAboutPackageDelivery (this : Client)
    (clientAddress : string) : IO unit :=
  console_log ("Client with address " +:+ clientAddress
                 +:+ " has been notified about the delivery").

Inductive AdministrativeAction : Type :=
| ReceiveItems (items : list string)
| SendItem (client : Client) (clientSpecificActions : list string)
    (clientAddress : string).

(** A [Client] has no [toString] of its own, so the template literal
    prints the default rendering of an object. *)
Definition performAdministrativeAction (a : AdministrativeAction) : IO unit :=
  match a with
  | ReceiveItems items =>
      console_log "Receiving items..." ;;
      console_log "Items received." ;;
      console_log "Adding items to DB." ;;
      forEach items
        (λ item, console_log ("Item: " +:+ item +:+ " has been added to the DB"))
  | SendItem client clientSpecificActions clientAddress =>
      console_log
        "ComplexCommand: Complex stuff should be done by a client object." ;;
      performSpecificClientActions client clientSpecificActions ;;
      notifyAboutPackageDelivery client clientAddress ;;
      console_log "Sending Item..." ;;
      console_log "Item has been sent to client: [object Object]"
  end.

Record SalesDepartment : Type := mkSalesDepartment {
  receiveItems : option AdministrativeAction;
  sendItem : option AdministrativeAction
}.

Definition new_SalesDepartment : SalesDepartment :=
  mkSalesDepartment None None.

Definition setReceiveItems (this : SalesDepartment)
    (adminAction : AdministrativeAction) : SalesDepartment :=
  mkSalesDepartment (Some adminAction) (sendItem this).

Definition setSendItem (this : SalesDepartment)
    (adminAction : AdministrativeAction) : SalesDepartment :=
  mkSalesDepartment (receiveItems this) (Some adminAction).

(** [return adminAction.performAdministrativeAction !== undefined] *)
Definition isCommand (adminAction : option AdministrativeAction)
  : IO bool :=
  match adminAction with
  | None => throw (read_of_undefined "performAdministrativeAction")
  | Some _ => ret true
  end.

(** [slot.performAdministrativeAction()], the call made through a slot. *)
Definition run_action (slot : option AdministrativeAction) : IO unit :=
  match slot with
  | None => throw (read_of_undefined "performAdministrativeAction")
  | Some a => performAdministrativeAction a
  end.

Definition receiveABunchOfItems (this : SalesDepartment) : IO unit :=
  b ← isCommand (receiveItems this) ;
  if b : bool then run_action (receiveItems this) else ret tt.

Definition sendAnItem (this : SalesDepartment) : IO unit :=
  b ← isCommand (sendItem this) ;
  if b : bool then run_action (sendItem this) else ret tt.

(** The driver's wiring: [setReceiveItems] is called twice and
    [setSendItem] never. *)
Definition salesDepartment : SalesDepartment :=
  setReceiveItems
    (setReceiveItems new_SalesDepartment
       (ReceiveItems ["item1"; "item2"; "item3"]))
    (SendItem new_Client
       ["Notify through Email"; "Add special gift card"]
       "Some Address in NY").

End Example.
End Command.

(** ** Chain of responsibility (Behavioral/chainOfResponsibility.ts, first part) *)

Module ChainOfResponsibility.
Module Explanation.

(** The three concrete subclasses of [AbstractHandler]. *)
Inductive HandlerClass : Type :=
| MonkeyHandler
| SquirrelHandler
| DogHandler.

(** A handler object: its class and its private [nextHandler] field,
    [None] while it is [undefined]. *)
Record Handler : Type := mkHandler {
  class : HandlerClass;
  nextHandler : option ref
}.

(** Handlers live in a store and are linked through references, so a
    chain may in principle be cyclic and [handle] takes a step budget. *)
Definition store := list Handler.

Definition new (c : HandlerClass) (σ : store) : store * ref :=
  (σ ++ [mkHandler c None], length σ).

Definition setNext (this handler : ref) (σ : store) : store * ref :=
  (alter (λ h, mkHandler (class h) (Some handler)) this σ, handler).

(** [handle] returns the result ([None] is [null]) and, as
    instrumentation, the handlers whose [handle] method ran, in call
    order. *)
Fixpoint handle (fuel : nat) (σ : store) (this : ref) (request : string)
  : outcome (option string) * list ref :=
  match fuel with
  | 0 => (OutOfFuel, [])
  | S fuel' =>
      match σ !! this with
      | None => (Throw (read_of_undefined "handle"), [])
      | Some h =>
          (* AbstractHandler.handle *)
          let super_handle :=
            match nextHandler h with
            | Some next => handle fuel' σ next request
            | None => (Return None, [])
            end in
          let '(result, consulted) :=
            match class h with
            | MonkeyHandler =>
                if String.eqb request "Banana"
                then (Return (Some ("Monkey: I'll eat the " +:+ request +:+ ".")), [])
                else super_handle
            | SquirrelHandler =>
                if String.eqb request "Nut"
                then (Return (Some ("Squirrel: I'll eat the " +:+ request +:+ ".")), [])
                else super_handle
            | DogHandler =>
                if String.eqb request "MeatBall"
                then (Return (Some ("Dog: I'll eat the " +:+ request +:+ ".")), [])
                else super_handle
            end in
          (result, this :: consulted)
      end
  end.

(** The driver: three handlers, then
    [monkey.setNext(squirrel).setNext(dog)]. *)
Definition monkey : ref := 0.
Definition squirrel : ref := 1.
Definition dog : ref := 2.

Definition wired : store :=
  let '(σ, monkey) := new MonkeyHandler [] in
  let '(σ, squirrel) := new SquirrelHandler σ in
  let '(σ, dog) := new DogHandler σ in
  let '(σ, r) := setNext monkey squirrel σ in
  let '(σ, _) := setNext r dog σ in
  σ.

(** [clientCode]: one call of [handle] per food, printing the answer. *)
Definition clientCode (fuel : nat) (σ : store) (handler : ref) : IO unit :=
  forEach ["Nut"; "Banana"; "Cup of coffee"]
    (λ food,
       console_log ("Client: Who wants a " +:+ food +:+ "?") ;;
       match (handle fuel σ handler food).1 with
       | Return (Some result) => console_log ("  " +:+ result)
       | Return None => console_log ("  " +:+ food +:+ " was left untouched.")
       | Throw e => throw e
       | OutOfFuel => λ out, (OutOfFuel, out)
       end).

End Explanation.

(** *** The buffet example *)
Module Example.

Inductive BuffetClass : Type :=
| JapaneseFoodBuffet
| MexicanFoodBuffet.

(** The constructor keeps the array it is given, so [menu] is a
    reference into the store of arrays. *)
Record Buffet : Type := mkBuffet {
  class : BuffetClass;
  nextBuffet : option ref;
  menu : ref
}.

Record store : Type := mkStore {
  buffets : list Buffet;
  arrays : list (list string)
}.

Definition empty_store : store := mkStore [] [].

(** An array literal. *)
Definition new_array (items : list string) (σ : store) : store * ref :=
  (mkStore (buffets σ) (arrays σ ++ [items]), length (arrays σ)).

(** [new C(menu)].  [MexicanFoodBuffet] declares [menu] again without
    an initialiser, which emits no code: the field set by the base
    constructor stays. *)
Definition new (c : BuffetClass) (menu : ref) (σ : store) : store * ref :=
  (mkStore (buffets σ ++ [mkBuffet c None menu]) (arrays σ),
   length (buffets σ)).

Definition passToNextBuffet (this nextBuffet : ref) (σ : store)
  : store * ref :=
  (mkStore
     (alter (λ b, mkBuffet (class b) (Some nextBuffet) (menu b)) this (buffets σ))
     (arrays σ),
   nextBuffet).

(** [Array.prototype.includes] on strings. *)
Definition includes (m : list string) (x : string) : bool :=
  existsb (String.eqb x) m.

(** [this.menu.push(foodType)] *)
Definition push (a : ref) (x : string) (σ : store) : store :=
  mkStore (buffets σ) (alter (λ m, m ++ [x]) a (arrays σ)).

Fixpoint addToMenu (fuel : nat) (σ : store) (this : ref) (foodType : string)
  : outcome (option string) * store :=
  match fuel with
  | 0 => (OutOfFuel, σ)
  | S fuel' =>
      match buffets σ !! this with
      | None => (Throw (read_of_undefined "addToMenu"), σ)
      | Some b =>
          match arrays σ !! menu b with
          | None => (Throw (read_of_undefined "includes"), σ)
          | Some m =>
              (* AbstractBuffet.addToMenu *)
              let super_addToMenu :=
                match nextBuffet b with
                | Some next => addToMenu fuel' σ next foodType
                | None => (Return None, σ)
                end in
              match class b with
              | JapaneseFoodBuffet =>
                  if String.eqb foodType "Sushi"
                     || (String.eqb foodType "Yakimeshi"
                         && negb (includes m foodType))
                  then (Return (Some ("JapaneseFoodBuffet: I'll add the "
                                        +:+ foodType +:+ " to my menu.")),
                        push (menu b) foodType σ)
                  else super_addToMenu
              | MexicanFoodBuffet =>
                  if String.eqb foodType "Tacos"
                     || (String.eqb foodType "Enchiladas"
                         && negb (includes m foodType))
                  then (Return (Some ("MexicanFoodBuffet: I'll add the "
                                        +:+ foodType +:+ " to my menu.")),
                        push (menu b) foodType σ)
                  else super_addToMenu
              end
          end
      end
  end.

(** The driver's wiring: two buffets, each over its own empty array,
    the Japanese one passing to the Mexican one. *)
Definition japaneseFoodBuffet : ref := 0.
Definition mexicanFoodBuffet : ref := 1.

Definition wired : store :=
  let '(σ, a) := new_array [] empty_store in
  let '(σ, japaneseFoodBuffet) := new JapaneseFoodBuffet a σ in
  let '(σ, a) := new_array [] σ in
  let '(σ, mexicanFoodBuffet) := new MexicanFoodBuffet a σ in
  let '(σ, _) := passToNextBuffet japaneseFoodBuffet mexicanFoodBuffet σ in
  σ.

(** [buffetClientCode] without the printing: the five requests in
    order, threading the store; the results are collected. *)
Fixpoint requests (fuel : nat) (σ : store) (buffet : ref) (foods : list string)
  : list (outcome (option string)) * store :=
  match foods with
  | [] => ([], σ)
  | food :: rest =>
      let '(r, σ') := addToMenu fuel σ buffet food in
      let '(rs, σ'') := requests fuel σ' buffet rest in
      (r :: rs, σ'')
  end.

Definition buffetClientCode (fuel : nat) (σ : store) (buffet : ref)
  : list (outcome (option string)) * store :=
  requests fuel σ buffet ["Sushi"; "Yakimeshi"; "Tacos"; "Enchiladas"; "Hamburger"].

(** The menu of a buffet, read through its array reference. *)
Definition menu_of (σ : store) (this : ref) : option (list string) :=
  b ← buffets σ !! this; arrays σ !! menu b.

End Example.
End ChainOfResponsibility.

(** ** Iterator (Behavioral/chainOfResponsibility.ts, third part) *)

Module Iterator.

(** [range] only compares its numbers with [<] and adds them.  The
    numbers are kept abstract: any carrier whose [>=] excludes [<],
    as the comparison of JavaScript numbers does (a comparison with
    NaN is false both ways).  The integers are the instance used for
    the driver's [range(0, 20, 5)].  Integer addition is the addition
    of JavaScript numbers only as long as the operands and the sum are
    safe integers (of magnitude at most 2^53 - 1); a statement that
    names the values a range yields carries that bound. *)
Class JSNumber : Type := {
  number : Type;
  lt : number → number → bool;
  ge : number → number → bool;
  add : number → number → number;
  ge_not_lt : ∀ a b : number, ge a b = true → lt a b = false
}.

Definition Z_ge_not_lt (a b : Z) (H : (a >=? b)%Z = true) : (a <? b)%Z = false :=
  proj2 (Z.ltb_ge a b) (proj1 (Z.geb_le a b) H).

#[global] Instance Z_number : JSNumber :=
  {| number := Z; lt := Z.ltb; ge := Z.geb; add := Z.add;
     ge_not_lt := Z_ge_not_lt |}.

(** Integer literals are read as numbers of this instance. *)
Canonical Structure Z_number.

Section Range.
Context `{JSNumber}.

(** The closure returned by [range]: [start] is the captured
    variable that [next] reassigns. *)
Record Range : Type := mkRange {
  start : number;
  end_ : number;
  step : number
}.

Definition range (start end_ step : number) : Range :=
  mkRange start end_ step.

Record IteratorResult : Type := mkResult {
  value : number;
  done : bool
}.

Definition next (this : Range) : IteratorResult * Range :=
  if lt (start this) (end_ this) then
    let start' := add (start this) (step this) in
    ({| value := start'; done := false |},
     mkRange start' (end_ this) (step this))
  else
    ({| done := true; value := end_ this |}, this).

(** [[Symbol.iterator]()] returns the object itself. *)
Definition iterator (this : Range) : Range := this.

(** The results of [n] successive calls of [next], and the iterator
    after them. *)
Fixpoint nexts (n : nat) (this : Range) : list IteratorResult * Range :=
  match n with
  | 0 => ([], this)
  | S n' =>
      let '(r, this') := next this in
      let '(rs, this'') := nexts n' this' in
      (r :: rs, this'')
  end.

(** A [for ... of] loop over the iterator, logging each value with
    [show]; the loop stops at the first [done] result. *)
Fixpoint for_of (fuel : nat) (show : number → string) (this : Range)
  : IO unit :=
  match fuel with
  | 0 => λ out, (OutOfFuel, out)
  | S fuel' =>
      let '(r, this') := next this in
      if done r then mret tt
      else console_log (show (value r)) ;; for_of fuel' show this'
  end.
End Range.

Arguments Range {_}.
Arguments IteratorResult {_}.

End Iterator.

(** ** Factory (Creational/factory.ts) *)

Module Factory.

(** The two product classes; a value of this type is an instance of
    the class it names. *)
Inductive Button : Type :=
| IOSButton
| AndroidButton.

(** [createButton] returns an object or, as far as its type goes,
    [null]; [None] stands for [null]. *)
Definition createButton (os : string) : option Button :=
  if String.eqb os "ios" then Some IOSButton else Some AndroidButton.

End Factory.

(** ** Singleton *)

Module Singleton.

Record ApplicationSettings : Type := mkApplicationSettings {
  applicationTheme : string
}.

(** The process state the class touches: the static field
    [instance] ([None] while [undefined]) and the objects constructed
    so far. *)
Record state : Type := mkState {
  instance : option ref;
  heap : list ApplicationSettings
}.

Definition initial : state := mkState None [].

(** The private constructor: allocates one object. *)
Definition new_ApplicationSettings (σ : state) : state * ref :=
  (mkState (instance σ) (heap σ ++ [mkApplicationSettings "dark"]),
   length (heap σ)).

Definition getInstance (σ : state) : ref * state :=
  match instance σ with
  | None =>
      let '(σ', r) := new_ApplicationSettings σ in
      (r, mkState (Some r) (heap σ'))
  | Some r => (r, σ)
  end.

(** What code outside the class can do with it.  The constructor is
    private, so [new ApplicationSettings()] is rejected outside the
    class; but the static field [instance] is declared without
    [private], so outside code can call [getInstance] and can also
    assign the field: [undefined] or [null] ([None]), or a reference. *)
Inductive action : Type :=
| Call
| Assign (v : option ref).

(** A run of client code: its actions in order; the results of the
    calls are collected. *)
Fixpoint run (actions : list action) (σ : state) : list ref * state :=
  match actions with
  | [] => ([], σ)
  | Call :: rest =>
      let '(r, σ') := getInstance σ in
      let '(rs, σ'') := run rest σ' in
      (r :: rs, σ'')
  | Assign v :: rest => run rest (mkState v (heap σ))
  end.

End Singleton.

(** ** Flyweight *)

Module Flyweight.
Module Explanation.

(** [new Flyweight(sharedState)] keeps the array it is given.  No code
    of the example writes to such an array, so the object is modelled
    by the array's contents. *)
Record Flyweight : Type := mkFlyweight {
  sharedState : list string
}.

(** [operation] stringifies both states with [JSON.stringify]; the
    rendering is a parameter here. *)
Definition operation (stringify : list string → string)
    (this : Flyweight) (uniqueState : list string) : IO unit :=
  let s := stringify (sharedState this) in
  let u := stringify uniqueState in
  console_log ("Flyweight: Displaying shared (" +:+ s +:+ ") and unique ("
                 +:+ u +:+ ") state.").

(** The cache [flyweights] is an ordinary object used as a map.  Its
    own properties are the cached entries.  The [in] operator and a
    property read also see the prototype chain: [Object.prototype], and
    before it the flyweight that an assignment to the key ["__proto__"]
    installed as prototype, if there was one. *)
Record FlyweightFactory : Type := mkFlyweightFactory {
  flyweights : gmap string ref;
  proto : option ref;
  heap : list Flyweight
}.

(** What a read of [flyweights[key]] can give. *)
Inductive value : Type :=
| Object (r : ref)
| Inherited (holder : option ref) (key : string)
| Undefined.

(** The property names of [Object.prototype]. *)
Definition Object_prototype : list string :=
  ["constructor"; "__defineGetter__"; "__defineSetter__"; "hasOwnProperty";
   "__lookupGetter__"; "__lookupSetter__"; "isPrototypeOf";
   "propertyIsEnumerable"; "toString"; "valueOf"; "__proto__";
   "toLocaleString"].

(** The property names a [Flyweight] instance adds in front of them:
    its own field and the members of [Flyweight.prototype]. *)
Definition Flyweight_properties : list string :=
  ["sharedState"; "constructor"; "operation"].

Definition inherited (this : FlyweightFactory) (key : string) : bool :=
  match proto this with
  | Some _ => bool_decide (key ∈ Flyweight_properties ++ Object_prototype)
  | None => bool_decide (key ∈ Object_prototype)
  end.

(** [key in this.flyweights] *)
Definition has (key : string) (this : FlyweightFactory) : bool :=
  bool_decide (is_Some (flyweights this !! key)) || inherited this key.

(** [this.flyweights[key]] *)
Definition get (key : string) (this : FlyweightFactory) : value :=
  match flyweights this !! key with
  | Some r => Object r
  | None =>
      if String.eqb key "__proto__" then
        match proto this with
        | Some r => Object r
        | None => Inherited None key
        end
      else if inherited this key then Inherited (proto this) key
      else Undefined
  end.

(** [this.flyweights[key] = r]: every inherited property is a writable
    data property, which the assignment shadows with an own property,
    except the accessor ["__proto__"], whose setter replaces the
    prototype. *)
Definition set (key : string) (r : ref) (this : FlyweightFactory)
  : FlyweightFactory :=
  if String.eqb key "__proto__"
  then mkFlyweightFactory (flyweights this) (Some r) (heap this)
  else mkFlyweightFactory (<[key := r]> (flyweights this)) (proto this) (heap this).

Definition new_Flyweight (sharedState : list string) (this : FlyweightFactory)
  : FlyweightFactory * ref :=
  (mkFlyweightFactory (flyweights this) (proto this)
     (heap this ++ [mkFlyweight sharedState]),
   length (heap this)).

(** [Array.prototype.join] on an array of strings. *)
Fixpoint join (sep : string) (l : list string) : string :=
  match l with
  | [] => ""
  | [x] => x
  | x :: rest => x +:+ sep +:+ join sep rest
  end.

Definition getKey (state : list string) : string := join "_" state.

(** The constructor: one unconditional assignment per initial state. *)
Fixpoint populate (initialFlyweights : list (list string))
    (this : FlyweightFactory) : FlyweightFactory :=
  match initialFlyweights with
  | [] => this
  | state :: rest =>
      let '(this, r) := new_Flyweight state this in
      populate rest (set (getKey state) r this)
  end.

Definition new_FlyweightFactory (initialFlyweights : list (list string))
  : FlyweightFactory :=
  populate initialFlyweights (mkFlyweightFactory ∅ None []).

Definition getFlyweight (sharedState : list string) (this : FlyweightFactory)
  : IO (value * FlyweightFactory) :=
  let key := getKey sharedState in
  this' ←
    (if negb (has key this) then
       console_log "FlyweightFactory: Can't find a flyweight, creating new one." ;;
       let '(this, r) := new_Flyweight sharedState this in
       mret (set key r this)
     else
       console_log "FlyweightFactory: Reusing existing flyweight." ;;
       mret this) ;
  mret (get key this', this').

(** [Object.keys(this.flyweights).length], the count that
    [listFlyweights] prints. *)
Definition count (this : FlyweightFactory) : nat := size (flyweights this).

(** The driver's factory. *)
Definition factory : FlyweightFactory :=
  new_FlyweightFactory
    [["Chevrolet"; "Camaro2018"; "pink"];
     ["Mercedes Benz"; "C300"; "black"];
     ["Mercedes Benz"; "C500"; "red"];
     ["BMW"; "M5"; "red"];
     ["BMW"; "X6"; "white"]].

End Explanation.
End Flyweight.

(** ** Template method (Behavioral/observer.ts, third part) *)

Module TemplateMethod.

(** A class is the table of its seven overridable methods. *)
Record Class : Type := mkClass {
  baseOperation1 : IO unit;
  requiredOperations1 : IO unit;
  baseOperation2 : IO unit;
  hook1 : IO unit;
  requiredOperation2 : IO unit;
  baseOperation3 : IO unit;
  hook2 : IO unit
}.

Definition templateMethod (this : Class) : IO unit :=
  baseOperation1 this ;;
  requiredOperations1 this ;;
  baseOperation2 this ;;
  hook1 this ;;
  requiredOperation2 this ;;
  baseOperation3 this ;;
  hook2 this.

(** The implementations [AbstractClass] provides. *)
Definition AbstractClass_baseOperation1 : IO unit :=
  console_log "AbstractClass says: I am doing the bulk of the work".

Definition AbstractClass_baseOperation2 : IO unit :=
  console_log "AbstractClass says: But I let subclasses override some operations".

Definition AbstractClass_baseOperation3 : IO unit :=
  console_log "AbstractClass says: But I am doing the bulk of the work anyway".

Definition AbstractClass_hook1 : IO unit := mret tt.

Definition AbstractClass_hook2 : IO unit := mret tt.

(** [class C extends AbstractClass]: the two required operations must
    be given, everything else is inherited. *)
Definition extends_AbstractClass (requiredOperations1 requiredOperation2 : IO unit)
  : Class :=
  {| baseOperation1 := AbstractClass_baseOperation1;
     requiredOperations1 := requiredOperations1;
     baseOperation2 := AbstractClass_baseOperation2;
     hook1 := AbstractClass_hook1;
     requiredOperation2 := requiredOperation2;
     baseOperation3 := AbstractClass_baseOperation3;
     hook2 := AbstractClass_hook2 |}.

Definition ConcreteClass1 : Class :=
  extends_AbstractClass
    (console_log "ConcreteClass1 says: Implemented Operation1")
    (console_log "ConcreteClass1 says: Implemented Operation2").

Definition ConcreteClass2 : Class :=
  let super :=
    extends_AbstractClass
      (console_log "ConcreteClass2 says: Implemented Operation1")
      (console_log "ConcreteClass2 says: Implemented Operation2") in
  {| baseOperation1 := baseOperation1 super;
     requiredOperations1 := requiredOperations1 super;
     baseOperation2 := baseOperation2 super;
     hook1 := console_log "ConcreteClass2 says: Overridden Hook1";
     requiredOperation2 := requiredOperation2 super;
     baseOperation3 := baseOperation3 super;
     hook2 := hook2 super |}.

Definition clientCode (abstractClass : Class) : IO unit :=
  templateMethod abstractClass.

(** What a run of [clientCode] prints on an empty console. *)
Definition printed (c : Class) : console := (clientCode c []).2.

End TemplateMethod.

(** ** Builder (Creational/builder.ts) *)

Module Builder.

(** The three optional constructor parameters are [undefined], here
    [None], when they are not given. *)
Record Hamburger : Type := mkHamburger {
  bread : string;
  ketchup : option bool;
  mustard : option bool;
  doubleMeat : option bool
}.

Definition new_Hamburger (bread : string) : Hamburger :=
  mkHamburger bread None None None.

(** Each method assigns one field and returns [this]; the object is
    threaded through the calls. *)
Definition addKetchup (this : Hamburger) : Hamburger :=
  mkHamburger (bread this) (Some true) (mustard this) (doubleMeat this).

Definition addMustard (this : Hamburger) : Hamburger :=
  mkHamburger (bread this) (ketchup this) (Some true) (doubleMeat this).

Definition addDoubleMeat (this : Hamburger) : Hamburger :=
  mkHamburger (bread this) (ketchup this) (mustard this) (Some true).

Definition lunch : Hamburger :=
  addDoubleMeat (addMustard (addKetchup (new_Hamburger "Some Bread"))).

End Builder.

(** ** Visitor (Behavioral/visitor.ts) *)

Module Visitor.
Module Explanation.

(** Components and visitors have no fields: an object is its class. *)
Inductive Component : Type :=
| ConcreteComponentA
| ConcreteComponentB.

Inductive Visitor : Type :=
| ConcreteVisitor1
| ConcreteVisitor2.

Definition exclusiveMethodOfConcreteComponentA (this : Component) : string := "A".

Definition specialMethodOfConcreteComponentB (this : Component) : string := "B".

Definition visitConcreteComponentA (this : Visitor) (element : Component)
  : IO unit :=
  match this with
  | ConcreteVisitor1 =>
      console_log (exclusiveMethodOfConcreteComponentA element +:+ " + ConcreteVisitor1")
  | ConcreteVisitor2 =>
      console_log (exclusiveMethodOfConcreteComponentA element +:+ " + ConcreteVisitor2")
  end.

Definition visitConcreteComponentB (this : Visitor) (element : Component)
  : IO unit :=
  match this with
  | ConcreteVisitor1 =>
      console_log (specialMethodOfConcreteComponentB element +:+ " + ConcreteVisitor1")
  | ConcreteVisitor2 =>
      console_log (specialMethodOfConcreteComponentB element +:+ " + ConcreteVisitor2")
  end.

Definition accept (this : Component) (visitor : Visitor) : IO unit :=
  match this with
  | ConcreteComponentA => visitConcreteComponentA visitor this
  | ConcreteComponentB => visitConcreteComponentB visitor this
  end.

Definition clientCode (components : list Component) (visitor : Visitor)
  : IO unit :=
  forEach components (λ component, accept component visitor).

End Explanation.

(** *** The car assembly example *)
Module Example.

Inductive CarAssemblyLineMachine : Type :=
| AddDoorsSubMachine
| AddWheelsSubMachine.

Inductive PartIntegrationMachine : Type :=
| FirstBrandPartIntegrationMachine
| SecondBrandPartIntegrationMachine.

Definition exclusiveMethodOfAddDorsMachine (this : CarAssemblyLineMachine)
    (color : string) : string :=
  "Doors have been painted with color: " +:+ color.

Definition exclusiveMethodOfAddWheelsMachine (this : CarAssemblyLineMachine)
    (specialDesign : string) : string :=
  "Special design: " +:+ specialDesign +:+ " has been applied to the wheels".

(** The integration machines call the sub-machine's method as a
    statement: the string it returns is dropped. *)
Definition addDoors (this : PartIntegrationMachine)
    (machine : CarAssemblyLineMachine) : IO unit :=
  match this with
  | FirstBrandPartIntegrationMachine =>
      let _ := exclusiveMethodOfAddDorsMachine machine "Brand1 Color" in mret tt
  | SecondBrandPartIntegrationMachine =>
      let _ := exclusiveMethodOfAddDorsMachine machine "Brand2 Color" in mret tt
  end.

Definition addWheels (this : PartIntegrationMachine)
    (machine : CarAssemblyLineMachine) : IO unit :=
  match this with
  | FirstBrandPartIntegrationMachine =>
      let _ := exclusiveMethodOfAddWheelsMachine machine "Brand1 Special Design" in
      mret tt
  | SecondBrandPartIntegrationMachine =>
      let _ := exclusiveMethodOfAddWheelsMachine machine "Brand2 Special Design" in
      mret tt
  end.

Definition addParts (this : CarAssemblyLineMachine)
    (partIntegrator : PartIntegrationMachine) : IO unit :=
  match this with
  | AddDoorsSubMachine => addDoors partIntegrator this
  | AddWheelsSubMachine => addWheels partIntegrator this
  end.

Definition carMakerClientCode (carAssemblyLineMachines : list CarAssemblyLineMachine)
    (integrationMachine : PartIntegrationMachine) : IO unit :=
  forEach carAssemblyLineMachines
    (λ component, addParts component integrationMachine).

End Example.
End Visitor.

(** ** Adapter *)

Module Adapter.
Module Explanation.

(** Strings are sequences of one-byte characters here; they stand for
    the JavaScript strings whose code units are below 256, which is
    all the example uses. *)

(** [s.split('')]: one string per character. *)
Fixpoint split (s : string) : list string :=
  match s with
  | EmptyString => []
  | String c rest => String c EmptyString :: split rest
  end.

(** [Array.prototype.join] on an array of strings. *)
Definition join (sep : string) (l : list string) : string :=
  Flyweight.Explanation.join sep l.

(** An adaptee is an object with a [specificRequest] method; the class
    [Adaptee] answers with a fixed string. *)
Record Adaptee : Type := mkAdaptee {
  specificRequest : string
}.

Definition new_Adaptee : Adaptee :=
  mkAdaptee ".eetpadA eht fo roivaheb laicepS".

(** The two classes a client can be handed as a [Target]. *)
Inductive Target : Type :=
| new_Target
| new_Adapter (adaptee : Adaptee).

Definition request (this : Target) : string :=
  match this with
  | new_Target => "Target: The default target's behavior."
  | new_Adapter adaptee =>
      let result := join "" (rev (split (specificRequest adaptee))) in
      "Adapter: (TRANSLATED) " +:+ result
  end.

Definition clientCode (target : Target) : IO unit :=
  console_log (request target).

End Explanation.
End Adapter.

(** ** Proxy *)

Module Proxy.

(** The target is an ordinary object whose own properties hold strings.
    A read also sees [Object.prototype]; what is found there is not a
    string and is represented by the name it was found under. *)
Inductive value : Type :=
| Str (s : string)
| Inherited (key : string)
| Undefined.

Definition originalObject : gmap string string := {[ "name" := "Alan" ]}.

(** [target[key]] *)
Definition read (t : gmap string string) (key : string) : value :=
  match t !! key with
  | Some s => Str s
  | None =>
      if bool_decide (key ∈ Flyweight.Explanation.Object_prototype)
      then Inherited key
      else Undefined
  end.

(** [Reflect.set(target, key, value)] with a string value: an own
    property is created or overwritten and the call answers [true];
    only the accessor ["__proto__"] takes the value itself, and its
    setter ignores a value that is not an object. *)
Definition Reflect_set (t : gmap string string) (key value : string)
  : bool * gmap string string :=
  if String.eqb key "__proto__" then (true, t)
  else (true, <[key := value]> t).

(** The two traps of the handler.  [console.log] separates its two
    arguments by a space. *)
Definition get (t : gmap string string) (key : string) : IO value :=
  console_log ("Tracking: " +:+ " " +:+ key) ;;
  mret (read t key).

Definition set (t : gmap string string) (key value : string)
  : IO (bool * gmap string string) :=
  console_log "Updating..." ;;
  mret (Reflect_set t key value).

End Proxy.

(** * Notions used to state the properties *)

Module ChainSpec.
Import ChainOfResponsibility.Explanation.

(** The guard of each concrete handler and the string it answers with. *)
Definition guard (c : HandlerClass) (request : string) : bool :=
  match c with
  | MonkeyHandler => String.eqb request "Banana"
  | SquirrelHandler => String.eqb request "Nut"
  | DogHandler => String.eqb request "MeatBall"
  end.

Definition answer (c : HandlerClass) (request : string) : string :=
  match c with
  | MonkeyHandler => "Monkey: I'll eat the " +:+ request +:+ "."
  | SquirrelHandler => "Squirrel: I'll eat the " +:+ request +:+ "."
  | DogHandler => "Dog: I'll eat the " +:+ request +:+ "."
  end.

(** [linked σ r l]: following [nextHandler] from [r] visits exactly the
    handlers of [l], in order, and then stops. *)
Inductive linked (σ : store) : ref → list (ref * HandlerClass) → Prop :=
| linked_last r c :
    σ !! r = Some (mkHandler c None) →
    linked σ r [(r, c)]
| linked_next r c r' l :
    σ !! r = Some (mkHandler c (Some r')) →
    linked σ r' l →
    linked σ r ((r, c) :: l).

(** What the claim asks of a chain [l] in declaration order: the answer
    of the first handler whose guard holds, and as consulted handlers
    those up to and including it; no answer, and all of them consulted,
    when no guard holds. *)
Fixpoint first_capable (request : string) (l : list (ref * HandlerClass))
  : option string * list ref :=
  match l with
  | [] => (None, [])
  | (r, c) :: l' =>
      if guard c request then (Some (answer c request), [r])
      else let '(result, consulted) := first_capable request l' in
           (result, r :: consulted)
  end.

(** The driver's chain in declaration order. *)
Definition chain : list (ref * HandlerClass) :=
  [(monkey, MonkeyHandler); (squirrel, SquirrelHandler); (dog, DogHandler)].

End ChainSpec.

Module FlyweightSpec.
Import Flyweight.Explanation.

(** A run of [getFlyweight] calls, one per requested state, in order. *)
Fixpoint requests (states : list (list string)) (this : FlyweightFactory)
  : IO (list value * FlyweightFactory) :=
  match states with
  | [] => mret ([], this)
  | sharedState :: rest =>
      '(v, this) ← getFlyweight sharedState this;
      '(vs, this) ← requests rest this;
      mret (v :: vs, this)
  end.

(** The flyweight object a returned value denotes, if it is one. *)
Definition deref (this : FlyweightFactory) (v : value) : option Flyweight :=
  match v with
  | Object r => heap this !! r
  | _ => None
  end.

(** The factory after the creating branch of [getFlyweight]. *)
Definition created (sharedState : list string) (this : FlyweightFactory)
  : FlyweightFactory :=
  set (getKey sharedState) (length (heap this)) (new_Flyweight sharedState this).1.

End FlyweightSpec.

Module TemplateSpec.
Import TemplateMethod.

(** A method that only prints the lines [ls]. *)
Definition prints (m : IO unit) (ls : list string) : Prop :=
  ∀ out, m out = (Return tt, out ++ ls).

(** The lines of the three base steps. *)
Definition base_lines : list string :=
  ["AbstractClass says: I am doing the bulk of the work";
   "AbstractClass says: But I let subclasses override some operations";
   "AbstractClass says: But I am doing the bulk of the work anyway"].

Definition is_base_line (line : string) : bool :=
  bool_decide (line ∈ base_lines).

(** The positions, counted from [i], of the base-step lines in a
    console output. *)
Fixpoint base_positions (i : nat) (out : console) : list nat :=
  match out with
  | [] => []
  | line :: rest =>
      if is_base_line line then i :: base_positions (S i) rest
      else base_positions (S i) rest
  end.

(** What each of the seven steps prints on its own, in the order of
    the steps. *)
Definition slots (c : Class) : list console :=
  (λ m : IO unit, (m []).2) <$>
    [baseOperation1 c; requiredOperations1 c; baseOperation2 c; hook1 c;
     requiredOperation2 c; baseOperation3 c; hook2 c].

End TemplateSpec.

Module BuffetSpec.
Import ChainOfResponsibility.Example.

(** The number of times [food] occurs in a menu. *)
Definition occurrences (food : string) (m : list string) : nat :=
  count_occ String.string_dec m food.

(** No array of the store holds [food] more than once. *)
Definition at_most_once (food : string) (σ : store) : Prop :=
  ∀ a m, arrays σ !! a = Some m → occurrences food m ≤ 1.

(** The four foods some buffet has a guard for. *)
Definition on_some_menu (food : string) : Prop :=
  food = "Sushi" ∨ food = "Yakimeshi" ∨ food = "Tacos" ∨ food = "Enchiladas".

End BuffetSpec.

Module FlyweightInv.
Import Flyweight.Explanation.

(** The cache is coherent when every entry refers to a flyweight of the
    heap whose state has the entry's key, and the flyweight installed
    as prototype, if any, is one whose key is ["__proto__"]. *)
Definition coherent (this : FlyweightFactory) : Prop :=
  (∀ key r, flyweights this !! key = Some r →
     ∃ f, heap this !! r = Some f ∧ getKey (sharedState f) = key)
  ∧ (∀ r, proto this = Some r →
       ∃ f, heap this !! r = Some f ∧ getKey (sharedState f) = "__proto__").

(** A string without the separator character. *)
Fixpoint underscore_free (s : string) : bool :=
  match s with
  | EmptyString => true
  | String c rest => negb (Ascii.eqb c "_"%char) && underscore_free rest
  end.

End FlyweightInv.

Module BuilderSpec.
Import Builder.

(** The steps of a fluent chain of calls on a hamburger. *)
Inductive step : Type :=
| AddKetchup
| AddMustard
| AddDoubleMeat.

#[global] Instance step_eq_dec : EqDecision step.
Proof. solve_decision. Defined.

Definition call (h : Hamburger) (s : step) : Hamburger :=
  match s with
  | AddKetchup => addKetchup h
  | AddMustard => addMustard h
  | AddDoubleMeat => addDoubleMeat h
  end.

(** [h.s1().s2()...]: the calls applied from left to right. *)
Definition fluent (steps : list step) (h : Hamburger) : Hamburger :=
  foldl call h steps.

End BuilderSpec.

Module VisitorSpec.
Import Visitor.Explanation.

Definition letter (c : Component) : string :=
  match c with
  | ConcreteComponentA => "A"
  | ConcreteComponentB => "B"
  end.

Definition visitor_name (v : Visitor) : string :=
  match v with
  | ConcreteVisitor1 => "ConcreteVisitor1"
  | ConcreteVisitor2 => "ConcreteVisitor2"
  end.

End VisitorSpec.

Module IteratorSpec.
Import Iterator.

(** [Number.MAX_SAFE_INTEGER] *)
Definition MAX_SAFE_INTEGER : Z := 2 ^ 53 - 1.

(** The integers on which the arithmetic of JavaScript numbers is
    exact. *)
Definition safe_integer (x : Z) : Prop :=
  (- MAX_SAFE_INTEGER ≤ x ≤ MAX_SAFE_INTEGER)%Z.


End IteratorSpec.

Module SingletonSpec.
Import Singleton.

(** The number of assignments to the static field in a run. *)
Fixpoint writes (actions : list action) : nat :=
  match actions with
  | [] => 0
  | Call :: rest => writes rest
  | Assign _ :: rest => S (writes rest)
  end.

End SingletonSpec.

(** * Properties *)

(** ** Command *)

Module CommandProps.
Import Command.

(** The [isCommand] probe never answers [false]: on a command it
    answers [true], on an unset slot it throws. *)
Lemma isCommand_never_false (object : option Explanation.Command) (out : console) :
  (Explanation.isCommand object out).1 ≠ Return false.
Proof. destruct object; cbn; discriminate. Qed.

(** C1: the claim says that an operation of the Invoker or of the
    SalesDepartment on a slot that was never set does nothing and raises
    no error.  The code throws a TypeError instead: whatever [onFinish]
    holds, [doSomethingImportant] with [onStart] unset prints its first
    line and throws at the probe; with [onStart] set and [onFinish]
    unset it throws at the second probe; [receiveABunchOfItems] and
    [sendAnItem] on an unset slot throw at once, and the driver's own
    call [salesDepartment.sendAnItem()] is such a call. *)
Theorem unset_slot_throws :
  (∀ onFinish out,
     Explanation.doSomethingImportant (Explanation.mkInvoker None onFinish) out
     = (Throw (read_of_undefined "execute"),
        out ++ ["Invoker: Does anybody want something done before I begin?"]))
  ∧ (Explanation.doSomethingImportant
       (Explanation.setOnStart Explanation.new_Invoker
          (Explanation.SimpleCommand "Say Hi!")) []
     = (Throw (read_of_undefined "execute"),
        ["Invoker: Does anybody want something done before I begin?";
         "SimpleCommand: See, I can do simple things like printing (Say Hi!)";
         "Invoker: ...doing something really important...";
         "Invoker: Does anybody want something done after I finish?"]))
  ∧ (∀ sendItem out,
       Example.receiveABunchOfItems (Example.mkSalesDepartment None sendItem) out
       = (Throw (read_of_undefined "performAdministrativeAction"), out))
  ∧ (∀ receiveItems out,
       Example.sendAnItem (Example.mkSalesDepartment receiveItems None) out
       = (Throw (read_of_undefined "performAdministrativeAction"), out))
  ∧ (Example.sendAnItem Example.salesDepartment []).1
    = Throw (read_of_undefined "performAdministrativeAction").
Proof.
  repeat split; try reflexivity.
Qed.

(** With both slots set, as the driver of the explanation part does, the
    operation runs both commands and returns. *)
Lemma invoker_both_set :
  Explanation.doSomethingImportant Explanation.invoker []
  = (Return tt,
     ["Invoker: Does anybody want something done before I begin?";
      "SimpleCommand: See, I can do simple things like printing (Say Hi!)";
      "Invoker: ...doing something really important...";
      "Invoker: Does anybody want something done after I finish?";
      "ComplexCommand: Complex stuff should be done by a receiver object.";
      "Receiver: Working on (Send email.)";
      "Receiver: Also working on (Save report.)"]).
Proof. reflexivity. Qed.

End CommandProps.

(** ** Chain of responsibility *)

Module ChainProps.
Import ChainOfResponsibility.Explanation ChainSpec.

Lemma wired_eq :
  wired = [mkHandler MonkeyHandler (Some squirrel);
           mkHandler SquirrelHandler (Some dog);
           mkHandler DogHandler None].
Proof. reflexivity. Qed.

Lemma wired_linked : linked wired monkey chain.
Proof.
  rewrite wired_eq. unfold chain.
  apply linked_next with (r' := squirrel); [reflexivity |].
  apply linked_next with (r' := dog); [reflexivity |].
  apply linked_last. reflexivity.
Qed.

(** One step of [handle] on a handler that is in the store. *)
Lemma handle_step fuel σ this c next request :
  σ !! this = Some (mkHandler c next) →
  handle (S fuel) σ this request =
    if guard c request then (Return (Some (answer c request)), [this])
    else
      let '(result, consulted) :=
        match next with
        | Some n => handle fuel σ n request
        | None => (Return None, [])
        end in
      (result, this :: consulted).
Proof.
  intros Hthis. cbn [handle]. rewrite Hthis. cbn [class nextHandler].
  destruct c; cbn [guard answer]; destruct (String.eqb request _); reflexivity.
Qed.

(** On a chain that is linked as [l], [handle] with enough fuel does what
    [first_capable] says. *)
Lemma handle_linked σ r l request :
  linked σ r l →
  ∀ fuel, length l ≤ fuel →
    handle fuel σ r request
    = (Return (first_capable request l).1, (first_capable request l).2).
Proof.
  induction 1 as [r c Hr | r c r' l Hr Hl IH]; intros fuel Hfuel.
  - destruct fuel as [| fuel]; [cbn in Hfuel; lia |].
    rewrite (handle_step _ _ _ _ _ _ Hr). cbn.
    destruct (guard c request); reflexivity.
  - destruct fuel as [| fuel]; [cbn in Hfuel; lia |].
    rewrite (handle_step _ _ _ _ _ _ Hr).
    cbn [first_capable]. destruct (guard c request); [reflexivity |].
    rewrite IH by (cbn in Hfuel; lia).
    destruct (first_capable request l); reflexivity.
Qed.

(** [first_capable] is the first handler of the list whose guard holds:
    the list splits around it, no guard holds before it, and the
    consulted handlers are those up to and including it. *)
Lemma first_capable_Some request l s consulted :
  first_capable request l = (Some s, consulted) →
  ∃ l1 r c l2,
    l = l1 ++ (r, c) :: l2
    ∧ (∀ x, x ∈ l1 → guard x.2 request = false)
    ∧ guard c request = true
    ∧ s = answer c request
    ∧ consulted = (l1 ++ [(r, c)]).*1.
Proof.
  revert s consulted.
  induction l as [| [r c] l IH]; intros s consulted; cbn [first_capable].
  - discriminate.
  - destruct (guard c request) eqn:Hg.
    + intros [= <- <-]. exists [], r, c, l.
      repeat split; [| exact Hg]. intros x Hx. inversion Hx.
    + destruct (first_capable request l) as [res t] eqn:Hf.
      intros [= -> <-].
      destruct (IH s t eq_refl) as (l1 & r1 & c1 & l2 & -> & Hno & Hyes & -> & ->).
      exists ((r, c) :: l1), r1, c1, l2.
      repeat split; [| exact Hyes].
      intros x Hx. apply elem_of_cons in Hx as [-> | Hx]; [exact Hg | auto].
Qed.

Lemma first_capable_None request l consulted :
  first_capable request l = (None, consulted) →
  (∀ x, x ∈ l → guard x.2 request = false) ∧ consulted = l.*1.
Proof.
  revert consulted.
  induction l as [| [r c] l IH]; intros consulted; cbn [first_capable].
  - intros [= <-]. split; [| reflexivity]. intros x Hx. inversion Hx.
  - destruct (guard c request) eqn:Hg; [discriminate |].
    destruct (first_capable request l) as [res t] eqn:Hf.
    intros [= -> <-]. destruct (IH t eq_refl) as [Hno ->].
    split; [| reflexivity].
    intros x Hx. apply elem_of_cons in Hx as [-> | Hx]; [exact Hg | auto].
Qed.

(** Closes the cases of the request: an equation between distinct
    literals, a literal claimed to be outside the handled set, or a
    list of distinct references. *)
Ltac chain_case :=
  repeat split;
  try (intros; congruence);
  try match goal with
      | Hout : _ ∉ _ |- _ => exfalso; apply Hout; repeat constructor
      end;
  try (apply NoDup_ListNoDup; unfold monkey, squirrel, dog;
       repeat constructor; cbn; intuition discriminate).

(** C2: on the chain Monkey > Squirrel > Dog, for every request and any
    budget of at least three steps, [handle] on the head returns: for
    'Banana', 'Nut' and 'MeatBall' the success string of the one handler
    whose guard matches, having consulted the handlers up to that one
    and none after it; for any other request [null], having consulted
    all three.  In each case this is the first capable handler in chain
    order, and no handler is consulted twice. *)
Theorem monkey_squirrel_dog (request : string) (fuel : nat) :
  3 ≤ fuel →
  let '(result, consulted) := handle fuel wired monkey request in
  (request = "Banana" →
     result = Return (Some "Monkey: I'll eat the Banana.")
     ∧ consulted = [monkey])
  ∧ (request = "Nut" →
     result = Return (Some "Squirrel: I'll eat the Nut.")
     ∧ consulted = [monkey; squirrel])
  ∧ (request = "MeatBall" →
     result = Return (Some "Dog: I'll eat the MeatBall.")
     ∧ consulted = [monkey; squirrel; dog])
  ∧ (request ∉ ["Banana"; "Nut"; "MeatBall"] →
     result = Return None ∧ consulted = [monkey; squirrel; dog])
  ∧ result = Return (first_capable request chain).1
  ∧ consulted = (first_capable request chain).2
  ∧ NoDup consulted.
Proof.
  intros Hfuel.
  rewrite (handle_linked _ _ _ request wired_linked fuel Hfuel).
  unfold chain. cbn [first_capable guard answer].
  destruct (String.eqb_spec request "Banana") as [-> | Hb];
    [cbn; chain_case |].
  destruct (String.eqb_spec request "Nut") as [-> | Hn];
    [cbn; chain_case |].
  destruct (String.eqb_spec request "MeatBall") as [-> | Hm];
    [cbn; chain_case |].
  cbn; chain_case.
Qed.

(** What the driver prints for the full chain and for the subchain
    that starts at the squirrel. *)
Lemma driver_output :
  clientCode 3 wired monkey []
  = (Return tt,
     ["Client: Who wants a Nut?"; "  Squirrel: I'll eat the Nut.";
      "Client: Who wants a Banana?"; "  Monkey: I'll eat the Banana.";
      "Client: Who wants a Cup of coffee?";
      "  Cup of coffee was left untouched."])
  ∧ clientCode 3 wired squirrel []
    = (Return tt,
       ["Client: Who wants a Nut?"; "  Squirrel: I'll eat the Nut.";
        "Client: Who wants a Banana?"; "  Banana was left untouched.";
        "Client: Who wants a Cup of coffee?";
        "  Cup of coffee was left untouched."]).
Proof. split; reflexivity. Qed.

Lemma monkey_squirrel_dog_witness :
  3 ≤ 3
  ∧ handle 3 wired monkey "Nut"
    = (Return (Some "Squirrel: I'll eat the Nut."), [monkey; squirrel])
  ∧ handle 3 wired monkey "Cup of coffee"
    = (Return None, [monkey; squirrel; dog]).
Proof.
  split; [lia |]. split.
  - pose proof (monkey_squirrel_dog "Nut" 3 (le_n 3)) as H.
    destruct (handle 3 wired monkey "Nut") as [result consulted].
    destruct H as (_ & Hnut & _).
    destruct (Hnut eq_refl) as [-> ->]. reflexivity.
  - reflexivity.
Defined.

End ChainProps.

(** ** The buffet chain *)

Module BuffetProps.
Import ChainOfResponsibility.Example.

Lemma includes_elem_of (m : list string) (x : string) :
  includes m x = true ↔ x ∈ m.
Proof.
  unfold includes. rewrite existsb_exists. split.
  - intros (y & Hy & Heq). apply String.eqb_eq in Heq as ->.
    by apply list_elem_of_In.
  - intros Hx. exists x. split; [by apply list_elem_of_In | apply String.eqb_refl].
Qed.

Lemma includes_not_elem_of (m : list string) (x : string) :
  includes m x = false ↔ x ∉ m.
Proof.
  rewrite <- includes_elem_of. destruct (includes m x); split; congruence.
Qed.

(** A push appends to the array the buffet refers to. *)
Lemma push_lookup (σ : store) (a : ref) (m : list string) (x : string) :
  arrays σ !! a = Some m →
  arrays (push a x σ) !! a = Some (m ++ [x]).
Proof.
  intros Ha. unfold push. cbn [arrays].
  rewrite list_lookup_alter_eq, Ha. reflexivity.
Qed.

(** C9: in both buffet classes the duplicate guard covers the second
    food only.  For a buffet [this] of the store whose menu array holds
    [m]: a Japanese buffet asked for 'Sushi' pushes it and answers with
    its success string whatever [m] holds, and likewise a Mexican buffet
    asked for 'Tacos'; asked for 'Yakimeshi' (resp. 'Enchiladas') the
    buffet pushes and answers only when the food is not in [m], and
    otherwise pushes nothing itself and passes the request on. *)
Theorem guard_covers_second_food_only
    (σ : store) (this : ref) (b : Buffet) (m : list string) (fuel : nat) :
  buffets σ !! this = Some b →
  arrays σ !! menu b = Some m →
  let passed_on food :=
    match nextBuffet b with
    | Some next => addToMenu fuel σ next food
    | None => (Return None, σ)
    end in
  (class b = JapaneseFoodBuffet →
     addToMenu (S fuel) σ this "Sushi"
     = (Return (Some "JapaneseFoodBuffet: I'll add the Sushi to my menu."),
        push (menu b) "Sushi" σ)
     ∧ arrays (push (menu b) "Sushi" σ) !! menu b = Some (m ++ ["Sushi"])
     ∧ ("Yakimeshi" ∉ m →
        addToMenu (S fuel) σ this "Yakimeshi"
        = (Return (Some "JapaneseFoodBuffet: I'll add the Yakimeshi to my menu."),
           push (menu b) "Yakimeshi" σ))
     ∧ ("Yakimeshi" ∈ m →
        addToMenu (S fuel) σ this "Yakimeshi" = passed_on "Yakimeshi"))
  ∧ (class b = MexicanFoodBuffet →
     addToMenu (S fuel) σ this "Tacos"
     = (Return (Some "MexicanFoodBuffet: I'll add the Tacos to my menu."),
        push (menu b) "Tacos" σ)
     ∧ arrays (push (menu b) "Tacos" σ) !! menu b = Some (m ++ ["Tacos"])
     ∧ ("Enchiladas" ∉ m →
        addToMenu (S fuel) σ this "Enchiladas"
        = (Return (Some "MexicanFoodBuffet: I'll add the Enchiladas to my menu."),
           push (menu b) "Enchiladas" σ))
     ∧ ("Enchiladas" ∈ m →
        addToMenu (S fuel) σ this "Enchiladas" = passed_on "Enchiladas")).
Proof.
  intros Hb Hm passed_on. subst passed_on.
  split; intros Hclass.
  - repeat split.
    + cbn [addToMenu]. rewrite Hb, Hm, Hclass. reflexivity.
    + by apply push_lookup.
    + intros Hout. apply includes_not_elem_of in Hout.
      cbn [addToMenu]. rewrite Hb, Hm, Hclass, Hout. reflexivity.
    + intros Hin. apply includes_elem_of in Hin.
      cbn [addToMenu]. rewrite Hb, Hm, Hclass, Hin. reflexivity.
  - repeat split.
    + cbn [addToMenu]. rewrite Hb, Hm, Hclass. reflexivity.
    + by apply push_lookup.
    + intros Hout. apply includes_not_elem_of in Hout.
      cbn [addToMenu]. rewrite Hb, Hm, Hclass, Hout. reflexivity.
    + intros Hin. apply includes_elem_of in Hin.
      cbn [addToMenu]. rewrite Hb, Hm, Hclass, Hin. reflexivity.
Qed.

(** The driver's two rounds of requests: the second round asks the
    Mexican buffet for 'Tacos' again and gets a duplicate, while
    'Enchiladas' is left alone. *)
Lemma driver_menus :
  let '(results1, σ1) := buffetClientCode 2 wired japaneseFoodBuffet in
  let '(results2, σ2) := buffetClientCode 2 σ1 mexicanFoodBuffet in
  results1 = [Return (Some "JapaneseFoodBuffet: I'll add the Sushi to my menu.");
              Return (Some "JapaneseFoodBuffet: I'll add the Yakimeshi to my menu.");
              Return (Some "MexicanFoodBuffet: I'll add the Tacos to my menu.");
              Return (Some "MexicanFoodBuffet: I'll add the Enchiladas to my menu.");
              Return None]
  ∧ results2 = [Return None;
                Return None;
                Return (Some "MexicanFoodBuffet: I'll add the Tacos to my menu.");
                Return None;
                Return None]
  ∧ menu_of σ2 japaneseFoodBuffet = Some ["Sushi"; "Yakimeshi"]
  ∧ menu_of σ2 mexicanFoodBuffet = Some ["Tacos"; "Enchiladas"; "Tacos"].
Proof. vm_compute. repeat split. Qed.

Lemma guard_covers_second_food_only_witness :
  let σ := (addToMenu 2 wired japaneseFoodBuffet "Sushi").2 in
  menu_of σ japaneseFoodBuffet = Some ["Sushi"]
  ∧ addToMenu 2 σ japaneseFoodBuffet "Sushi"
    = (Return (Some "JapaneseFoodBuffet: I'll add the Sushi to my menu."),
       push 0 "Sushi" σ)
  ∧ menu_of (push 0 "Sushi" σ) japaneseFoodBuffet = Some ["Sushi"; "Sushi"].
Proof.
  intros σ.
  pose proof (guard_covers_second_food_only σ japaneseFoodBuffet
                (mkBuffet JapaneseFoodBuffet (Some mexicanFoodBuffet) 0)
                ["Sushi"] 1 eq_refl eq_refl) as [HJ _].
  destruct (HJ eq_refl) as (Hsushi & Hmenu & _).
  split; [reflexivity |]. split; [exact Hsushi | exact Hmenu].
Defined.

End BuffetProps.

(** ** Iterator *)

Module IteratorProps.
Import Iterator.

Section Generic.
Context `{JSNumber}.

(** Successive calls compose. *)
Lemma nexts_add (a b : nat) (this : Range) :
  nexts (a + b) this
  = let '(rs1, this1) := nexts a this in
    let '(rs2, this2) := nexts b this1 in
    (rs1 ++ rs2, this2).
Proof.
  revert this. induction a as [| a IH]; intros this; cbn [nexts Nat.add].
  - destruct (nexts b this); reflexivity.
  - destruct (next this) as [r this'] eqn:Hnext. rewrite IH.
    destruct (nexts a this') as [rs1 this1].
    destruct (nexts b this1) as [rs2 this2]. reflexivity.
Qed.

(** Once [start < end] fails, [next] answers [done] with the boundary
    value and leaves the iterator as it is. *)
Lemma next_exhausted (this : Range) :
  lt (start this) (end_ this) = false →
  next this = (mkResult (end_ this) true, this).
Proof. intros Hlt. unfold next. rewrite Hlt. reflexivity. Qed.

Lemma nexts_exhausted (n : nat) (this : Range) :
  lt (start this) (end_ this) = false →
  nexts n this = (replicate n (mkResult (end_ this) true), this).
Proof.
  intros Hlt. induction n as [| n IH]; cbn [nexts replicate]; [reflexivity |].
  rewrite (next_exhausted this Hlt), IH. reflexivity.
Qed.

(** C4: whenever [start >= end], the first [next()] on
    [range(start, end, step)] returns [done = true] with the value [end];
    [next] has no throwing step, so it returns in every case. *)
Theorem first_next_when_start_ge_end (start end_ step : number) :
  ge start end_ = true →
  next (range start end_ step)
  = ({| value := end_; done := true |}, range start end_ step).
Proof.
  intros Hge. apply (next_exhausted (range start end_ step)).
  cbn. by apply ge_not_lt.
Qed.

End Generic.

Lemma first_next_when_start_ge_end_witness :
  (20 >=? 20)%Z = true
  ∧ next (range 20%Z 20%Z 5%Z)
    = ({| value := 20%Z; done := true |}, range 20%Z 20%Z 5%Z).
Proof.
  split; [reflexivity |].
  apply (first_next_when_start_ge_end 20%Z 20%Z 5%Z).
  reflexivity.
Defined.

(** C3: the first four [next()] calls on [range(0, 20, 5)] give 5, 10,
    15 and 20 with [done = false]; the fifth and every later call gives
    [done = true] (with the value 20), and the iterator stays exhausted.
    A [for ... of] loop over it therefore logs 5, 10, 15, 20 and ends. *)
Theorem range_0_20_5 :
  (∀ n : nat,
     nexts (4 + n) (range 0%Z 20%Z 5%Z)
     = ([mkResult 5%Z false; mkResult 10%Z false;
         mkResult 15%Z false; mkResult 20%Z false]
          ++ replicate n (mkResult 20%Z true),
        mkRange 20%Z 20%Z 5%Z))
  ∧ (∀ fuel : nat, 5 ≤ fuel →
       for_of fuel pretty (iterator (range 0%Z 20%Z 5%Z)) []
       = (Return tt, ["5"; "10"; "15"; "20"])).
Proof.
  split.
  - intros n. rewrite nexts_add.
    change (nexts 4 (range 0%Z 20%Z 5%Z))
      with ([mkResult 5%Z false; mkResult 10%Z false;
             mkResult 15%Z false; mkResult 20%Z false],
            mkRange 20%Z 20%Z 5%Z).
    cbv beta iota. rewrite nexts_exhausted by reflexivity. reflexivity.
  - intros fuel Hfuel.
    do 5 (destruct fuel as [| fuel]; [lia |]). reflexivity.
Qed.

Lemma range_0_20_5_witness :
  5 ≤ 5
  ∧ for_of 5 pretty (iterator (range 0%Z 20%Z 5%Z)) []
    = (Return tt, ["5"; "10"; "15"; "20"])
  ∧ (nexts 6 (range 0%Z 20%Z 5%Z)).1
    = [mkResult 5%Z false; mkResult 10%Z false; mkResult 15%Z false;
       mkResult 20%Z false; mkResult 20%Z true; mkResult 20%Z true].
Proof.
  destruct range_0_20_5 as [Hnexts Hloop].
  split; [lia |]. split; [apply Hloop; lia |].
  change (nexts 6 (range 0%Z 20%Z 5%Z)) with (nexts (4 + 2) (range 0%Z 20%Z 5%Z)).
  rewrite (Hnexts 2). reflexivity.
Defined.

End IteratorProps.

(** ** Factory *)

Module FactoryProps.
Import Factory.

(** C7: for every string [os], [createButton] returns an [IOSButton]
    exactly when [os] is 'ios', an [AndroidButton] for every other
    string, and never [null]. *)
Theorem createButton_cases (os : string) :
  (createButton os = Some IOSButton ↔ os = "ios")
  ∧ (os ≠ "ios" → createButton os = Some AndroidButton)
  ∧ createButton os ≠ None.
Proof.
  unfold createButton.
  destruct (String.eqb_spec os "ios") as [-> | Hne].
  - repeat split; congruence.
  - repeat split; congruence.
Qed.

Lemma createButton_cases_witness :
  "android" ≠ "ios" ∧ createButton "android" = Some AndroidButton.
Proof.
  split; [discriminate |].
  apply (createButton_cases "android"). discriminate.
Defined.

End FactoryProps.

(** ** Singleton *)

Module SingletonProps.
Import Singleton SingletonSpec.

(** A call on a state whose [instance] is set returns it and changes
    nothing. *)
Lemma getInstance_cached (σ : state) (r : ref) :
  instance σ = Some r → getInstance σ = (r, σ).
Proof. intros Hr. unfold getInstance. rewrite Hr. reflexivity. Qed.

(** After any call the field is set to the reference returned. *)
Lemma getInstance_sets (σ : state) :
  instance (getInstance σ).2 = Some (getInstance σ).1.
Proof.
  unfold getInstance. destruct (instance σ) as [r |] eqn:Hr; cbn; [exact Hr | reflexivity].
Qed.

Lemma run_app (actions1 actions2 : list action) (σ : state) :
  run (actions1 ++ actions2) σ
  = let '(rs1, σ1) := run actions1 σ in
    let '(rs2, σ2) := run actions2 σ1 in
    (rs1 ++ rs2, σ2).
Proof.
  revert σ. induction actions1 as [| [| v] actions1 IH]; intros σ; cbn [run app].
  - destruct (run actions2 σ); reflexivity.
  - destruct (getInstance σ) as [r σ']. rewrite IH.
    destruct (run actions1 σ') as [rs1 σ1]. destruct (run actions2 σ1). reflexivity.
  - apply IH.
Qed.

Lemma run_calls_cached (n : nat) (σ : state) (r : ref) :
  instance σ = Some r → run (replicate n Call) σ = (replicate n r, σ).
Proof.
  intros Hr. induction n as [| n IH]; cbn [run replicate]; [reflexivity |].
  rewrite (getInstance_cached σ r Hr), IH. reflexivity.
Qed.

(** C6: the claim says that any two calls of [getInstance] in a process
    return the identical instance.  The code does not ensure it: the
    static field [instance] is public, and client code that clears it
    after any number of calls makes the next call construct and return
    a second [ApplicationSettings].  Here the calls before the reset
    all return the object 0, the call after it returns the new object
    1, and two objects exist. *)
Theorem second_instance_after_reset :
  run [Call; Assign None; Call] initial
  = ([0; 1],
     mkState (Some 1) [mkApplicationSettings "dark"; mkApplicationSettings "dark"])
  ∧ ∀ n,
      run (replicate (S n) Call ++ [Assign None; Call]) initial
      = (replicate (S n) 0 ++ [1],
         mkState (Some 1)
           [mkApplicationSettings "dark"; mkApplicationSettings "dark"]).
Proof.
  split; [reflexivity |].
  intros n. rewrite run_app. cbn [replicate run].
  change (getInstance initial)
    with (0, mkState (Some 0) [mkApplicationSettings "dark"]).
  cbv beta iota. rewrite (run_calls_cached n _ 0) by reflexivity.
  reflexivity.
Qed.

End SingletonProps.

(** ** Flyweight *)

Module FlyweightProps.
Import Flyweight.Explanation FlyweightSpec.

(** ["__proto__"] is always found on the chain, so a guarded assignment
    never reaches the prototype setter. *)
Lemma has_proto (this : FlyweightFactory) : has "__proto__" this = true.
Proof.
  unfold has, inherited. destruct (proto this); cbn; apply orb_true_r.
Qed.

Lemma not_has_not_proto (key : string) (this : FlyweightFactory) :
  has key this = false → String.eqb key "__proto__" = false.
Proof.
  intros Hhas. destruct (String.eqb_spec key "__proto__") as [-> | Hne];
    [| reflexivity].
  rewrite has_proto in Hhas. discriminate.
Qed.

Lemma not_has_lookup (key : string) (this : FlyweightFactory) :
  has key this = false → flyweights this !! key = None.
Proof.
  unfold has. intros Hhas. apply orb_false_elim in Hhas as [Hown _].
  apply bool_decide_eq_false in Hown.
  destruct (flyweights this !! key); [exfalso; apply Hown; eauto | reflexivity].
Qed.

Lemma created_eq (sharedState : list string) (this : FlyweightFactory) :
  has (getKey sharedState) this = false →
  created sharedState this
  = mkFlyweightFactory
      (<[getKey sharedState := length (heap this)]> (flyweights this))
      (proto this)
      (heap this ++ [mkFlyweight sharedState]).
Proof.
  intros Hhas. unfold created, set.
  rewrite (not_has_not_proto _ _ Hhas). reflexivity.
Qed.

(** [getFlyweight] always returns; its two branches. *)
Lemma getFlyweight_eq (sharedState : list string) (this : FlyweightFactory)
    (out : console) :
  getFlyweight sharedState this out
  = if has (getKey sharedState) this
    then (Return (get (getKey sharedState) this, this),
          out ++ ["FlyweightFactory: Reusing existing flyweight."])
    else (Return (get (getKey sharedState) (created sharedState this),
                  created sharedState this),
          out ++ ["FlyweightFactory: Can't find a flyweight, creating new one."]).
Proof.
  unfold getFlyweight, created. destruct (has (getKey sharedState) this); reflexivity.
Qed.

(** Creating an entry leaves every property that was visible before
    visible, with the same value. *)
Lemma created_preserves (sharedState : list string) (this : FlyweightFactory)
    (key : string) :
  has (getKey sharedState) this = false →
  has key this = true →
  has key (created sharedState this) = true
  ∧ get key (created sharedState this) = get key this.
Proof.
  intros Hnew Hkey. rewrite (created_eq _ _ Hnew).
  assert (getKey sharedState ≠ key) as Hne by (intros <-; congruence).
  unfold has, get, inherited in *. cbn [flyweights proto].
  rewrite lookup_insert_ne by exact Hne. split; [exact Hkey | reflexivity].
Qed.

Lemma created_has (sharedState : list string) (this : FlyweightFactory) :
  has (getKey sharedState) this = false →
  has (getKey sharedState) (created sharedState this) = true
  ∧ get (getKey sharedState) (created sharedState this) = Object (length (heap this))
  ∧ deref (created sharedState this) (Object (length (heap this)))
    = Some (mkFlyweight sharedState)
  ∧ count (created sharedState this) = S (count this).
Proof.
  intros Hnew. rewrite (created_eq _ _ Hnew).
  unfold has, get, deref, count. cbn [flyweights proto heap].
  rewrite lookup_insert_eq. repeat split.
  - rewrite lookup_app_r by lia. by rewrite Nat.sub_diag.
  - apply map_size_insert_None. by apply not_has_lookup.
Qed.

(** One call, whatever its argument, keeps what was visible. *)
Lemma getFlyweight_preserves (sharedState : list string)
    (this : FlyweightFactory) (out : console) (key : string) :
  has key this = true →
  ∃ v this' out',
    getFlyweight sharedState this out = (Return (v, this'), out')
    ∧ has key this' = true
    ∧ get key this' = get key this.
Proof.
  intros Hkey. rewrite getFlyweight_eq.
  destruct (has (getKey sharedState) this) eqn:Hhas.
  - eexists _, _, _. split; [reflexivity |]. split; [exact Hkey | reflexivity].
  - eexists _, _, _. split; [reflexivity |].
    by apply created_preserves.
Qed.

Lemma requests_preserves (states : list (list string)) :
  ∀ (this : FlyweightFactory) (out : console) (key : string),
    has key this = true →
    ∃ vs this' out',
      requests states this out = (Return (vs, this'), out')
      ∧ has key this' = true
      ∧ get key this' = get key this.
Proof.
  induction states as [| sharedState rest IH]; intros this out key Hkey.
  - exists [], this, out. split; [reflexivity |]. split; [exact Hkey | reflexivity].
  - destruct (getFlyweight_preserves sharedState this out key Hkey)
      as (v & this1 & out1 & Hcall & Hhas1 & Hget1).
    destruct (IH this1 out1 key Hhas1) as (vs & this2 & out2 & Hrest & Hhas2 & Hget2).
    exists (v :: vs), this2, out2.
    split; [| split; [exact Hhas2 | congruence]].
    cbn [requests]. unfold mbind, IO_bind, bind. rewrite Hcall.
    cbn. unfold bind. rewrite Hrest. reflexivity.
Qed.

(** For every factory state and every [sharedState]: a call of
    [getFlyweight] returns; a later call with an equal [sharedState],
    after any number of other [getFlyweight] calls in between, returns
    the identical value and leaves the factory as it was; the first
    call raises the number of cached entries by exactly one when the
    key was not found by [key in this.flyweights] and leaves it
    unchanged when it was found.  In the creating case the value is a
    fresh [Flyweight] holding [sharedState]; when the key is an entry
    of the cache, the value is the cached [Flyweight]. *)
Theorem getFlyweight_shares (this : FlyweightFactory)
    (sharedState : list string) (between : list (list string)) (out : console) :
  ∃ v this1 out1 vs this2 out2 out3,
    getFlyweight sharedState this out = (Return (v, this1), out1)
    ∧ requests between this1 out1 = (Return (vs, this2), out2)
    ∧ getFlyweight sharedState this2 out2 = (Return (v, this2), out3)
    ∧ count this1
      = (if has (getKey sharedState) this then count this else S (count this))
    ∧ (has (getKey sharedState) this = true → this1 = this)
    ∧ (∀ r, flyweights this !! getKey sharedState = Some r → v = Object r)
    ∧ (has (getKey sharedState) this = false →
       v = Object (length (heap this))
       ∧ deref this1 v = Some (mkFlyweight sharedState)).
Proof.
  set (key := getKey sharedState).
  assert (∃ v this1 out1,
            getFlyweight sharedState this out = (Return (v, this1), out1)
            ∧ has key this1 = true ∧ v = get key this1
            ∧ count this1 = (if has key this then count this else S (count this))
            ∧ (has key this = true → this1 = this)
            ∧ (∀ r, flyweights this !! key = Some r → v = Object r)
            ∧ (has key this = false →
               v = Object (length (heap this))
               ∧ deref this1 v = Some (mkFlyweight sharedState)))
    as (v & this1 & out1 & Hfirst & Hhas1 & Hv & Hcount & Hsame & Hown & Hnew).
  { rewrite getFlyweight_eq. fold key.
    destruct (has key this) eqn:Hhas.
    - eexists _, _, _. split; [reflexivity |].
      split; [exact Hhas |]. split; [reflexivity |]. split; [reflexivity |].
      split; [reflexivity |]. split; [| discriminate].
      intros r Hr. unfold get. rewrite Hr. reflexivity.
    - destruct (created_has sharedState this Hhas) as (H1 & H2 & H3 & H4).
      fold key in H1, H2.
      eexists _, _, _. split; [reflexivity |].
      split; [exact H1 |]. split; [reflexivity |]. split; [exact H4 |].
      split; [discriminate |]. split.
      + intros r Hr. rewrite (not_has_lookup _ _ Hhas) in Hr. discriminate.
      + intros _. rewrite H2. split; [reflexivity | exact H3]. }
  destruct (requests_preserves between this1 out1 key Hhas1)
    as (vs & this2 & out2 & Hmid & Hhas2 & Hget2).
  exists v, this1, out1, vs, this2, out2,
    (out2 ++ ["FlyweightFactory: Reusing existing flyweight."]).
  split; [exact Hfirst |]. split; [exact Hmid |].
  split; [| split; [exact Hcount | split; [exact Hsame | split; [exact Hown | exact Hnew]]]].
  rewrite getFlyweight_eq. fold key. rewrite Hhas2, Hget2, Hv. reflexivity.
Qed.

Lemma getFlyweight_shares_witness :
  has (getKey ["BMW"; "X1"; "red"]) factory = false
  ∧ has (getKey ["BMW"; "M5"; "red"]) factory = true
  ∧ count factory = 5
  ∧ ∃ v this1 out1 vs this2 out2 out3,
      getFlyweight ["BMW"; "X1"; "red"] factory [] = (Return (v, this1), out1)
      ∧ requests [["BMW"; "M5"; "red"]] this1 out1 = (Return (vs, this2), out2)
      ∧ getFlyweight ["BMW"; "X1"; "red"] this2 out2 = (Return (v, this2), out3)
      ∧ count this1 = 6
      ∧ v = Object 5.
Proof.
  split; [by vm_compute |]. split; [by vm_compute |]. split; [by vm_compute |].
  destruct (getFlyweight_shares factory ["BMW"; "X1"; "red"]
              [["BMW"; "M5"; "red"]] [])
    as (v & this1 & out1 & vs & this2 & out2 & out3
        & H1 & H2 & H3 & Hcount & _ & _ & Hnew).
  exists v, this1, out1, vs, this2, out2, out3.
  split; [exact H1 |]. split; [exact H2 |]. split; [exact H3 |].
  split; [exact Hcount |]. apply Hnew. by vm_compute.
Defined.

(** C5: the claim says that for every [sharedState] a call returns a
    [Flyweight] instance and that a call whose key is not yet in the
    cache adds exactly one entry.  The code looks the key up with [in],
    which also finds the properties inherited from [Object.prototype].
    For the state ['toString'] (and likewise ['constructor']), whose
    key has no entry in the cache, it reports a reused flyweight,
    returns the inherited function, which is not a [Flyweight],
    allocates nothing and adds no entry: the count stays as it was. *)
Theorem getFlyweight_answers_inherited_property :
  (flyweights factory !! getKey ["toString"] = None
   ∧ count factory = 5
   ∧ ∀ out,
       getFlyweight ["toString"] factory out
       = (Return (Inherited None "toString", factory),
          out ++ ["FlyweightFactory: Reusing existing flyweight."]))
  ∧ (flyweights (new_FlyweightFactory []) !! getKey ["constructor"] = None
     ∧ count (new_FlyweightFactory []) = 0
     ∧ ∀ out,
         getFlyweight ["constructor"] (new_FlyweightFactory []) out
         = (Return (Inherited None "constructor", new_FlyweightFactory []),
            out ++ ["FlyweightFactory: Reusing existing flyweight."])).
Proof.
  split.
  - split; [by vm_compute |]. split; [by vm_compute |].
    intros out. rewrite getFlyweight_eq.
    assert (has (getKey ["toString"]) factory = true) as -> by (by vm_compute).
    assert (get (getKey ["toString"]) factory = Inherited None "toString") as ->
      by (by vm_compute).
    reflexivity.
  - split; [by vm_compute |]. split; [by vm_compute |].
    intros out. rewrite getFlyweight_eq.
    assert (has (getKey ["constructor"]) (new_FlyweightFactory []) = true) as ->
      by (by vm_compute).
    assert (get (getKey ["constructor"]) (new_FlyweightFactory [])
            = Inherited None "constructor") as -> by (by vm_compute).
    reflexivity.
Qed.

(** Two states with the same key share one flyweight, which holds the
    state that was asked for first. *)
Lemma colliding_states_share (this : FlyweightFactory)
    (state1 state2 : list string) (out : console) :
  getKey state1 = getKey state2 →
  has (getKey state1) this = false →
  ∃ this1 out1 out2,
    getFlyweight state1 this out = (Return (Object (length (heap this)), this1), out1)
    ∧ getFlyweight state2 this1 out1
      = (Return (Object (length (heap this)), this1), out2)
    ∧ heap this1 !! length (heap this) = Some (mkFlyweight state1).
Proof.
  intros Hkey Hnew.
  destruct (created_has state1 this Hnew) as (Hhas & Hget & Hderef & _).
  exists (created state1 this). eexists _, _.
  rewrite !getFlyweight_eq, Hnew, <- Hkey, Hhas, Hget.
  split; [reflexivity |]. split; [reflexivity | exact Hderef].
Qed.

(** C10: [getKey] is not injective.  ['a','b_c'] and ['a_b','c'] are
    different arrays with the same key, and so are ['a_b'] and ['a','b'];
    asked for the first and then for the second of such a pair, the
    driver's factory returns one and the same flyweight, and the state
    it stores is the first array, not the second. *)
Theorem getKey_not_injective :
  (["a"; "b_c"] ≠ ["a_b"; "c"]
   ∧ getKey ["a"; "b_c"] = getKey ["a_b"; "c"]
   ∧ ∃ r this1 out1 out2,
       getFlyweight ["a"; "b_c"] factory [] = (Return (Object r, this1), out1)
       ∧ getFlyweight ["a_b"; "c"] this1 out1 = (Return (Object r, this1), out2)
       ∧ sharedState <$> heap this1 !! r = Some ["a"; "b_c"])
  ∧ (["a_b"] ≠ ["a"; "b"]
     ∧ getKey ["a_b"] = getKey ["a"; "b"]
     ∧ ∃ r this1 out1 out2,
         getFlyweight ["a_b"] factory [] = (Return (Object r, this1), out1)
         ∧ getFlyweight ["a"; "b"] this1 out1 = (Return (Object r, this1), out2)
         ∧ sharedState <$> heap this1 !! r = Some ["a_b"]).
Proof.
  split.
  - split; [discriminate |]. split; [reflexivity |].
    destruct (colliding_states_share factory ["a"; "b_c"] ["a_b"; "c"] [])
      as (this1 & out1 & out2 & H1 & H2 & H3); [reflexivity | by vm_compute |].
    exists (length (heap factory)), this1, out1, out2.
    split; [exact H1 |]. split; [exact H2 |]. rewrite H3. reflexivity.
  - split; [discriminate |]. split; [reflexivity |].
    destruct (colliding_states_share factory ["a_b"] ["a"; "b"] [])
      as (this1 & out1 & out2 & H1 & H2 & H3); [reflexivity | by vm_compute |].
    exists (length (heap factory)), this1, out1, out2.
    split; [exact H1 |]. split; [exact H2 |]. rewrite H3. reflexivity.
Qed.

End FlyweightProps.

(** ** Template method *)

Module TemplateProps.
Import TemplateMethod TemplateSpec.

Lemma console_log_prints (line : string) : prints (console_log line) [line].
Proof. intros out. reflexivity. Qed.

Lemma mret_prints : prints (mret tt) [].
Proof. intros out. cbn. unfold ret. by rewrite app_nil_r. Qed.

(** Running one printing step and then the rest. *)
Lemma bind_prints (m : IO unit) (ls : list string) (k : IO unit) (out : console) :
  prints m ls → (m ;; k) out = k (out ++ ls).
Proof. intros Hm. unfold mbind, IO_bind, bind. rewrite Hm. reflexivity. Qed.

(** For every class whose seven methods print, [templateMethod] returns
    and prints their lines in the order of the seven steps. *)
Lemma templateMethod_order (c : Class) (l1 l2 l3 l4 l5 l6 l7 : list string)
    (out : console) :
  prints (baseOperation1 c) l1 →
  prints (requiredOperations1 c) l2 →
  prints (baseOperation2 c) l3 →
  prints (hook1 c) l4 →
  prints (requiredOperation2 c) l5 →
  prints (baseOperation3 c) l6 →
  prints (hook2 c) l7 →
  templateMethod c out
  = (Return tt, out ++ l1 ++ l2 ++ l3 ++ l4 ++ l5 ++ l6 ++ l7).
Proof.
  intros H1 H2 H3 H4 H5 H6 H7. unfold templateMethod.
  rewrite (bind_prints _ _ _ _ H1), (bind_prints _ _ _ _ H2),
    (bind_prints _ _ _ _ H3), (bind_prints _ _ _ _ H4),
    (bind_prints _ _ _ _ H5), (bind_prints _ _ _ _ H6), H7.
  by rewrite <- !app_assoc.
Qed.

(** C8, as stated, fails: the base-step lines are not at the same
    positions of the two outputs.  [ConcreteClass1] prints five lines
    with the base lines at positions 0, 2 and 4; [ConcreteClass2] prints
    six, its overridden [hook1] adding one before the third base line,
    which moves to position 5. *)
Lemma base_lines_not_at_same_positions :
  printed ConcreteClass1
  = ["AbstractClass says: I am doing the bulk of the work";
     "ConcreteClass1 says: Implemented Operation1";
     "AbstractClass says: But I let subclasses override some operations";
     "ConcreteClass1 says: Implemented Operation2";
     "AbstractClass says: But I am doing the bulk of the work anyway"]
  ∧ printed ConcreteClass2
    = ["AbstractClass says: I am doing the bulk of the work";
       "ConcreteClass2 says: Implemented Operation1";
       "AbstractClass says: But I let subclasses override some operations";
       "ConcreteClass2 says: Overridden Hook1";
       "ConcreteClass2 says: Implemented Operation2";
       "AbstractClass says: But I am doing the bulk of the work anyway"]
  ∧ base_positions 0 (printed ConcreteClass1) = [0; 2; 4]
  ∧ base_positions 0 (printed ConcreteClass2) = [0; 2; 5]
  ∧ base_positions 0 (printed ConcreteClass1)
    ≠ base_positions 0 (printed ConcreteClass2).
Proof.
  split; [reflexivity |]. split; [reflexivity |].
  split; [by vm_compute |]. split; [by vm_compute |].
  vm_compute. discriminate.
Qed.

(** C8, amended: [templateMethod] runs the seven steps in the fixed
    order for every class whose steps print, so its output is the
    outputs of baseOperation1, requiredOperations1, baseOperation2,
    hook1, requiredOperation2, baseOperation3 and hook2 one after the
    other.  For [ConcreteClass1] and [ConcreteClass2] the three base
    lines are the output of the same steps (the first, third and sixth),
    they appear in both outputs in the same order, and each output is
    the concatenation of its seven step outputs. *)
Theorem templateMethod_fixed_order :
  (∀ (c : Class) (l1 l2 l3 l4 l5 l6 l7 : list string) (out : console),
     prints (baseOperation1 c) l1 →
     prints (requiredOperations1 c) l2 →
     prints (baseOperation2 c) l3 →
     prints (hook1 c) l4 →
     prints (requiredOperation2 c) l5 →
     prints (baseOperation3 c) l6 →
     prints (hook2 c) l7 →
     templateMethod c out
     = (Return tt, out ++ l1 ++ l2 ++ l3 ++ l4 ++ l5 ++ l6 ++ l7))
  ∧ (∀ c, c = ConcreteClass1 ∨ c = ConcreteClass2 →
       printed c = concat (slots c)
       ∧ slots c !! 0 = Some ["AbstractClass says: I am doing the bulk of the work"]
       ∧ slots c !! 2
         = Some ["AbstractClass says: But I let subclasses override some operations"]
       ∧ slots c !! 5
         = Some ["AbstractClass says: But I am doing the bulk of the work anyway"]
       ∧ filter (λ line, is_base_line line = true) (printed c) = base_lines
       ∧ (∀ i, i ∈ [1; 3; 4; 6] →
            ∀ ls line, slots c !! i = Some ls → line ∈ ls →
              is_base_line line = false)).
Proof.
  split; [exact templateMethod_order |].
  intros c [-> | ->].
  - split; [reflexivity |]. split; [reflexivity |]. split; [reflexivity |].
    split; [reflexivity |]. split; [by vm_compute |].
    intros i Hi ls line Hls Hline.
    repeat (apply elem_of_cons in Hi as [-> | Hi]);
      try (apply elem_of_nil in Hi; contradiction);
      cbn in Hls; injection Hls as <-;
      repeat (apply elem_of_cons in Hline as [-> | Hline]);
      try (apply elem_of_nil in Hline; contradiction);
      by vm_compute.
  - split; [reflexivity |]. split; [reflexivity |]. split; [reflexivity |].
    split; [reflexivity |]. split; [by vm_compute |].
    intros i Hi ls line Hls Hline.
    repeat (apply elem_of_cons in Hi as [-> | Hi]);
      try (apply elem_of_nil in Hi; contradiction);
      cbn in Hls; injection Hls as <-;
      repeat (apply elem_of_cons in Hline as [-> | Hline]);
      try (apply elem_of_nil in Hline; contradiction);
      by vm_compute.
Qed.

Lemma templateMethod_fixed_order_witness :
  prints (hook1 ConcreteClass2) ["ConcreteClass2 says: Overridden Hook1"]
  ∧ templateMethod ConcreteClass2 []
    = (Return tt,
       ["AbstractClass says: I am doing the bulk of the work";
        "ConcreteClass2 says: Implemented Operation1";
        "AbstractClass says: But I let subclasses override some operations";
        "ConcreteClass2 says: Overridden Hook1";
        "ConcreteClass2 says: Implemented Operation2";
        "AbstractClass says: But I am doing the bulk of the work anyway"])
  ∧ slots ConcreteClass2 !! 5
    = Some ["AbstractClass says: But I am doing the bulk of the work anyway"].
Proof.
  destruct templateMethod_fixed_order as [Horder Hbase].
  split; [apply console_log_prints |]. split.
  - apply (Horder ConcreteClass2
             ["AbstractClass says: I am doing the bulk of the work"]
             ["ConcreteClass2 says: Implemented Operation1"]
             ["AbstractClass says: But I let subclasses override some operations"]
             ["ConcreteClass2 says: Overridden Hook1"]
             ["ConcreteClass2 says: Implemented Operation2"]
             ["AbstractClass says: But I am doing the bulk of the work anyway"]
             [] []);
      first [apply console_log_prints | apply mret_prints].
  - apply (Hbase ConcreteClass2). by right.
Defined.

End TemplateProps.

(** * Further properties of the code *)

(** ** Chains of any shape *)

Module ChainMore.
Import ChainOfResponsibility.Explanation ChainSpec.

(** On any chain that ends, whatever its length and its handlers, and
    with a budget of at least its length, [handle] either answers with
    the string of the first handler whose guard holds, having consulted
    the handlers up to that one and no other, or finds no guard that
    holds, returns [null] and has consulted every handler once, in
    chain order. *)
Theorem handle_on_any_chain (σ : store) (r : ref)
    (l : list (ref * HandlerClass)) (request : string) (fuel : nat) :
  linked σ r l →
  length l ≤ fuel →
  (∃ l1 r' c l2,
     l = l1 ++ (r', c) :: l2
     ∧ (∀ x, x ∈ l1 → guard x.2 request = false)
     ∧ guard c request = true
     ∧ handle fuel σ r request
       = (Return (Some (answer c request)), (l1 ++ [(r', c)]).*1))
  ∨ ((∀ x, x ∈ l → guard x.2 request = false)
     ∧ handle fuel σ r request = (Return None, l.*1)).
Proof.
  intros Hl Hfuel.
  rewrite (ChainProps.handle_linked σ r l request Hl fuel Hfuel).
  destruct (first_capable request l) as [[s |] consulted] eqn:Hfirst.
  - left.
    destruct (ChainProps.first_capable_Some _ _ _ _ Hfirst)
      as (l1 & r' & c & l2 & -> & Hno & Hyes & -> & ->).
    exists l1, r', c, l2. repeat split; assumption.
  - right.
    destruct (ChainProps.first_capable_None _ _ _ Hfirst) as [Hno ->].
    split; [exact Hno | reflexivity].
Qed.

(** Two monkeys in a row: the first one answers, the second is not
    consulted. *)
Lemma handle_on_any_chain_witness :
  let σ := [mkHandler MonkeyHandler (Some 1); mkHandler MonkeyHandler None] in
  linked σ 0 [(0, MonkeyHandler); (1, MonkeyHandler)]
  ∧ handle 2 σ 0 "Banana" = (Return (Some "Monkey: I'll eat the Banana."), [0]).
Proof.
  intros σ.
  assert (linked σ 0 [(0, MonkeyHandler); (1, MonkeyHandler)]) as Hl.
  { apply linked_next with (r' := 1); [reflexivity |].
    apply linked_last. reflexivity. }
  split; [exact Hl |].
  destruct (handle_on_any_chain σ 0 _ "Banana" 2 Hl (le_n 2))
    as [(l1 & r' & c & l2 & _ & _ & _ & H) | [_ H]];
    reflexivity.
Defined.

(** A chain that closes on itself: when every handler of the store has
    a successor in the store and no guard holds for the request,
    [handle] exhausts every budget, from whichever handler it starts;
    the request goes round and is never answered. *)
Theorem handle_never_returns_on_a_cycle (σ : store) (request : string) :
  (∀ r h, σ !! r = Some h →
     guard (class h) request = false
     ∧ ∃ n, nextHandler h = Some n ∧ n < length σ) →
  ∀ fuel r, r < length σ → (handle fuel σ r request).1 = OutOfFuel.
Proof.
  intros Hclosed fuel. induction fuel as [| fuel IH]; intros r Hr.
  - reflexivity.
  - destruct (lookup_lt_is_Some_2 σ r Hr) as [[c next] Hh].
    destruct (Hclosed r _ Hh) as [Hguard (n & Hnext & Hn)].
    cbn [class nextHandler] in Hguard, Hnext. subst next.
    rewrite (ChainProps.handle_step fuel σ r c (Some n) request Hh), Hguard.
    specialize (IH n Hn).
    destruct (handle fuel σ n request) as [result consulted].
    exact IH.
Qed.

(** [monkey.setNext(monkey)] and a request for a nut. *)
Lemma handle_never_returns_on_a_cycle_witness :
  let σ := (setNext 0 0 (new MonkeyHandler []).1).1 in
  σ = [mkHandler MonkeyHandler (Some 0)]
  ∧ (handle 1000 σ 0 "Nut").1 = OutOfFuel.
Proof.
  intros σ. split; [reflexivity |].
  apply (handle_never_returns_on_a_cycle σ "Nut"); [| cbn; lia].
  intros r h Hh. destruct r as [| r]; [| discriminate].
  injection Hh as <-. split; [reflexivity |].
  exists 0. split; [reflexivity | cbn; lia].
Defined.

(** [setNext] touches one link only: the store keeps its size, every
    handler keeps its class, and every handler but [this] keeps its
    successor; [this] gets [handler], which is also what is returned. *)
Theorem setNext_one_link (this handler : ref) (σ : store) :
  (setNext this handler σ).2 = handler
  ∧ length (setNext this handler σ).1 = length σ
  ∧ (∀ r, class <$> (setNext this handler σ).1 !! r = class <$> σ !! r)
  ∧ (∀ r, r ≠ this → (setNext this handler σ).1 !! r = σ !! r)
  ∧ (this < length σ →
     nextHandler <$> (setNext this handler σ).1 !! this = Some (Some handler)).
Proof.
  unfold setNext, store in *. cbn [fst snd].
  split; [reflexivity |]. split; [apply length_alter |]. split.
  { intros r. destruct (decide (this = r)) as [-> | Hne].
    - rewrite list_lookup_alter_eq. destruct (σ !! r); reflexivity.
    - rewrite list_lookup_alter_ne by exact Hne. reflexivity. }
  split.
  { intros r Hne. apply list_lookup_alter_ne. congruence. }
  intros Hthis. rewrite list_lookup_alter_eq.
  destruct (lookup_lt_is_Some_2 σ this Hthis) as [h ->]. reflexivity.
Qed.

Lemma setNext_one_link_witness :
  squirrel ≠ monkey
  ∧ monkey < length wired
  ∧ (setNext monkey dog wired).1 !! squirrel = wired !! squirrel
  ∧ nextHandler <$> (setNext monkey dog wired).1 !! monkey = Some (Some dog).
Proof.
  destruct (setNext_one_link monkey dog wired) as (_ & _ & _ & Hother & Hthis).
  split; [discriminate |]. split; [vm_compute; lia |].
  split; [apply Hother; discriminate | apply Hthis; vm_compute; lia].
Defined.

End ChainMore.

(** ** The buffet chain, for every store *)

Module BuffetMore.
Import ChainOfResponsibility.Example BuffetSpec.

(** What a call can do, whatever the store, the entry point and the
    budget: either it changes nothing and gives no success string, or
    one buffet pushes the food onto its array and answers. *)
Lemma addToMenu_shape (fuel : nat) :
  ∀ (σ : store) (this : ref) (food : string),
    ((addToMenu fuel σ this food).2 = σ
     ∧ ∀ s, (addToMenu fuel σ this food).1 ≠ Return (Some s))
    ∨ (∃ a m s,
         arrays σ !! a = Some m
         ∧ addToMenu fuel σ this food = (Return (Some s), push a food σ)
         ∧ on_some_menu food
         ∧ (food = "Yakimeshi" ∨ food = "Enchiladas" → food ∉ m)).
Proof.
  induction fuel as [| fuel IH]; intros σ this food; cbn [addToMenu].
  - left. split; [reflexivity | discriminate].
  - destruct (buffets σ !! this) as [b |]; [| left; split; [reflexivity | discriminate]].
    destruct (arrays σ !! menu b) as [m |] eqn:Hm;
      [| left; split; [reflexivity | discriminate]].
    assert (((match nextBuffet b with
              | Some next => addToMenu fuel σ next food
              | None => (Return None, σ)
              end).2 = σ
             ∧ ∀ s, (match nextBuffet b with
                     | Some next => addToMenu fuel σ next food
                     | None => (Return None, σ)
                     end).1 ≠ Return (Some s))
            ∨ (∃ a m s,
                 arrays σ !! a = Some m
                 ∧ match nextBuffet b with
                   | Some next => addToMenu fuel σ next food
                   | None => (Return None, σ)
                   end = (Return (Some s), push a food σ)
                 ∧ on_some_menu food
                 ∧ (food = "Yakimeshi" ∨ food = "Enchiladas" → food ∉ m)))
      as Hsuper.
    { destruct (nextBuffet b) as [next |]; [apply IH |].
      left. split; [reflexivity | discriminate]. }
    destruct (class b).
    + destruct (String.eqb_spec food "Sushi") as [-> | Hs]; cbn [orb].
      { right. eexists _, m, _. split; [exact Hm |]. split; [reflexivity |].
        split; [by left |]. intros [? | ?]; discriminate. }
      destruct (String.eqb_spec food "Yakimeshi") as [-> | Hy]; cbn [andb];
        [| exact Hsuper].
      destruct (includes m "Yakimeshi") eqn:Hin; cbn [negb]; [exact Hsuper |].
      right. eexists _, m, _. split; [exact Hm |]. split; [reflexivity |].
      split; [right; by left |]. intros _.
      by apply BuffetProps.includes_not_elem_of.
    + destruct (String.eqb_spec food "Tacos") as [-> | Hs]; cbn [orb].
      { right. eexists _, m, _. split; [exact Hm |]. split; [reflexivity |].
        split; [right; right; by left |]. intros [? | ?]; discriminate. }
      destruct (String.eqb_spec food "Enchiladas") as [-> | Hy]; cbn [andb];
        [| exact Hsuper].
      destruct (includes m "Enchiladas") eqn:Hin; cbn [negb]; [exact Hsuper |].
      right. eexists _, m, _. split; [exact Hm |]. split; [reflexivity |].
      split; [right; right; by right |]. intros _.
      by apply BuffetProps.includes_not_elem_of.
Qed.

Lemma push_arrays (σ : store) (a : ref) (m : list string) (food : string) :
  arrays σ !! a = Some m →
  ∀ a', arrays (push a food σ) !! a'
        = if decide (a' = a) then Some (m ++ [food]) else arrays σ !! a'.
Proof.
  intros Ha a'. unfold push. cbn [arrays]. case_decide as Heq.
  - subst a'. rewrite list_lookup_alter_eq, Ha. reflexivity.
  - apply list_lookup_alter_ne. congruence.
Qed.

(** A call never rewires or retypes a buffet and never creates or drops
    an array.  It answers with a success string exactly when it pushes:
    then one array has the requested food appended and every other
    array is as before; otherwise the whole store is as before. *)
Theorem addToMenu_changes_one_menu_at_most
    (fuel : nat) (σ : store) (this : ref) (food : string) :
  let '(result, σ') := addToMenu fuel σ this food in
  buffets σ' = buffets σ
  ∧ length (arrays σ') = length (arrays σ)
  ∧ ((σ' = σ ∧ ∀ s, result ≠ Return (Some s))
     ∨ (∃ a m s,
          result = Return (Some s)
          ∧ arrays σ !! a = Some m
          ∧ ∀ a', arrays σ' !! a'
                  = if decide (a' = a) then Some (m ++ [food])
                    else arrays σ !! a')).
Proof.
  destruct (addToMenu_shape fuel σ this food)
    as [[Hsame Hno] | (a & m & s & Ha & Hcall & _ & _)].
  - destruct (addToMenu fuel σ this food) as [result σ'].
    cbn [fst snd] in Hsame, Hno. subst σ'.
    split; [reflexivity |]. split; [reflexivity |]. left. by split.
  - rewrite Hcall. split; [reflexivity |].
    split; [unfold push; cbn [arrays]; apply length_alter |].
    right. exists a, m, s. split; [reflexivity |]. split; [exact Ha |].
    by apply push_arrays.
Qed.

(** A food no buffet has a guard for leaves every store untouched and
    is never answered with a success string, from any entry point and
    for any budget. *)
Theorem addToMenu_unknown_food
    (fuel : nat) (σ : store) (this : ref) (food : string) :
  food ∉ ["Sushi"; "Yakimeshi"; "Tacos"; "Enchiladas"] →
  (addToMenu fuel σ this food).2 = σ
  ∧ ∀ s, (addToMenu fuel σ this food).1 ≠ Return (Some s).
Proof.
  intros Hout.
  destruct (addToMenu_shape fuel σ this food)
    as [H | (a & m & s & _ & _ & Hfood & _)]; [exact H |].
  exfalso. apply Hout.
  destruct Hfood as [-> | [-> | [-> | ->]]]; repeat constructor.
Qed.

Lemma addToMenu_unknown_food_witness :
  ("Hamburger" ∉ ["Sushi"; "Yakimeshi"; "Tacos"; "Enchiladas"])
  ∧ (addToMenu 2 wired japaneseFoodBuffet "Hamburger").2 = wired.
Proof.
  assert ("Hamburger" ∉ ["Sushi"; "Yakimeshi"; "Tacos"; "Enchiladas"]) as Hout.
  { intros Hin. repeat (apply elem_of_cons in Hin as [Hin | Hin]; [discriminate |]).
    by apply elem_of_nil in Hin. }
  split; [exact Hout |].
  apply (addToMenu_unknown_food 2 wired japaneseFoodBuffet "Hamburger" Hout).
Defined.

Lemma occurrences_app (food : string) (m1 m2 : list string) :
  occurrences food (m1 ++ m2) = occurrences food m1 + occurrences food m2.
Proof. apply count_occ_app. Qed.

Lemma occurrences_absent (food : string) (m : list string) :
  food ∉ m → occurrences food m = 0.
Proof.
  intros Hout. apply count_occ_not_In. by rewrite <- list_elem_of_In.
Qed.

(** The guarded foods stay unique: if no array holds 'Yakimeshi' (or
    'Enchiladas') more than once, then after any call, for any request,
    none does. *)
Theorem guarded_food_stays_unique
    (guarded : string) (fuel : nat) (σ : store) (this : ref) (food : string) :
  guarded = "Yakimeshi" ∨ guarded = "Enchiladas" →
  at_most_once guarded σ →
  at_most_once guarded (addToMenu fuel σ this food).2.
Proof.
  intros Hguarded Hinv.
  destruct (addToMenu_shape fuel σ this food)
    as [[Hsame _] | (a & m & s & Ha & Hcall & _ & Hfresh)].
  - rewrite Hsame. exact Hinv.
  - rewrite Hcall. cbn [snd]. intros a' m' Hm'.
    rewrite (push_arrays σ a m food Ha) in Hm'. case_decide as Heq.
    + injection Hm' as <-. rewrite occurrences_app.
      destruct (decide (food = guarded)) as [-> | Hne].
      * rewrite (occurrences_absent guarded m) by (apply Hfresh; exact Hguarded).
        unfold occurrences. cbn. destruct (String.string_dec guarded guarded); lia.
      * pose proof (Hinv a m Ha) as Hm.
        unfold occurrences in *. cbn.
        destruct (String.string_dec food guarded); [contradiction | lia].
    + exact (Hinv a' m' Hm').
Qed.

Lemma guarded_food_stays_unique_witness :
  let σ := (addToMenu 2 wired japaneseFoodBuffet "Yakimeshi").2 in
  at_most_once "Yakimeshi" wired
  ∧ at_most_once "Yakimeshi" (addToMenu 2 σ japaneseFoodBuffet "Yakimeshi").2
  ∧ menu_of (addToMenu 2 σ japaneseFoodBuffet "Yakimeshi").2 japaneseFoodBuffet
    = Some ["Yakimeshi"].
Proof.
  intros σ.
  assert (at_most_once "Yakimeshi" wired) as H0.
  { intros a m Hm. destruct a as [| [| a]]; cbn in Hm;
      try discriminate; injection Hm as <-; cbn; lia. }
  split; [exact H0 |]. split; [| reflexivity].
  apply (guarded_food_stays_unique "Yakimeshi" 2 σ japaneseFoodBuffet "Yakimeshi");
    [by left |].
  apply (guarded_food_stays_unique "Yakimeshi" 2 wired japaneseFoodBuffet "Yakimeshi");
    [by left | exact H0].
Defined.

(** The unguarded food piles up: [n] requests for 'Sushi' to a Japanese
    buffet are all answered with the success string and leave [n] more
    copies of 'Sushi' on its menu; likewise 'Tacos' and a Mexican
    buffet. *)
Theorem unguarded_food_piles_up
    (σ : store) (this : ref) (b : Buffet) (m : list string) (fuel n : nat) :
  buffets σ !! this = Some b →
  arrays σ !! menu b = Some m →
  0 < fuel →
  let food := match class b with
              | JapaneseFoodBuffet => "Sushi"
              | MexicanFoodBuffet => "Tacos"
              end in
  let name := match class b with
              | JapaneseFoodBuffet => "JapaneseFoodBuffet"
              | MexicanFoodBuffet => "MexicanFoodBuffet"
              end in
  let '(results, σ') := requests fuel σ this (replicate n food) in
  results = replicate n (Return (Some (name +:+ ": I'll add the " +:+ food
                                         +:+ " to my menu.")))
  ∧ buffets σ' = buffets σ
  ∧ arrays σ' !! menu b = Some (m ++ replicate n food).
Proof.
  intros Hb Hm Hfuel food name.
  destruct fuel as [| fuel]; [lia |]. clear Hfuel.
  revert σ m Hb Hm. induction n as [| n IH]; intros σ m Hb Hm.
  - cbn. rewrite app_nil_r. by split.
  - cbn [replicate requests].
    assert (addToMenu (S fuel) σ this food
            = (Return (Some (name +:+ ": I'll add the " +:+ food +:+ " to my menu.")),
               push (menu b) food σ)) as Hcall.
    { cbn [addToMenu]. rewrite Hb, Hm. subst food name.
      destruct (class b); reflexivity. }
    rewrite Hcall.
    specialize (IH (push (menu b) food σ) (m ++ [food]) Hb
                  (BuffetProps.push_lookup σ (menu b) m food Hm)).
    destruct (requests (S fuel) (push (menu b) food σ) this (replicate n food))
      as [results σ'].
    destruct IH as (-> & Hbuffets & Harr).
    split; [reflexivity |]. split; [exact Hbuffets |].
    rewrite Harr, <- app_assoc. reflexivity.
Qed.

Lemma unguarded_food_piles_up_witness :
  0 < 2
  ∧ menu_of (requests 2 wired japaneseFoodBuffet (replicate 3 "Sushi")).2
      japaneseFoodBuffet
    = Some ["Sushi"; "Sushi"; "Sushi"].
Proof.
  split; [lia |].
  pose proof (unguarded_food_piles_up wired japaneseFoodBuffet
                (mkBuffet JapaneseFoodBuffet (Some mexicanFoodBuffet) 0) [] 2 3
                eq_refl eq_refl (le_S _ _ (le_n 1))) as H.
  cbv zeta in H. cbn [class] in H.
  destruct (requests 2 wired japaneseFoodBuffet (replicate 3 "Sushi"))
    as [results σ'].
  destruct H as (_ & Hb & Harr).
  unfold menu_of. cbn [snd]. rewrite Hb. cbn. exact Harr.
Defined.

End BuffetMore.

(** ** Commands that are set *)

Module CommandMore.
Import Command.

(** A [forEach] whose callback logs one line per element logs the lines
    in the order of the elements and returns. *)
Lemma forEach_log {A} (l : list A) (line : A → string) (out : console) :
  forEach l (λ x, console_log (line x)) out = (Return tt, out ++ (line <$> l)).
Proof.
  revert out. induction l as [| x l IH]; intros out; cbn [forEach fmap list_fmap].
  - cbn. unfold ret. by rewrite app_nil_r.
  - unfold mbind, IO_bind, bind, console_log. rewrite IH.
    by rewrite <- app_assoc.
Qed.

Lemma log_then {B} (line : string) (k : IO B) (out : console) :
  (console_log line ;; k) out = k (out ++ [line]).
Proof. reflexivity. Qed.

Lemma forEach_log_then {A B} (l : list A) (line : A → string) (k : IO B)
    (out : console) :
  (forEach l (λ x, console_log (line x)) ;; k) out = k (out ++ (line <$> l)).
Proof. unfold mbind, IO_bind, bind. by rewrite forEach_log. Qed.

(** A command only prints: it returns, and what it adds to the console
    does not depend on what was printed before. *)
Lemma execute_prints (c : Explanation.Command) (out : console) :
  Explanation.execute c out = (Return tt, out ++ (Explanation.execute c []).2).
Proof.
  destruct c;
    unfold Explanation.execute, Explanation.doSomething,
      Explanation.doSomethingElse, mbind, IO_bind, bind, console_log;
    cbn; rewrite <- ?app_assoc; reflexivity.
Qed.

(** With both slots set, whatever the two commands are,
    [doSomethingImportant] returns without throwing and prints, in this
    order: its opening line, the start command's output, its two middle
    lines, the finish command's output. *)
Theorem invoker_runs_start_then_finish
    (start finish : Explanation.Command) (out : console) :
  Explanation.doSomethingImportant
    (Explanation.setOnFinish
       (Explanation.setOnStart Explanation.new_Invoker start) finish) out
  = (Return tt,
     out ++ ["Invoker: Does anybody want something done before I begin?"]
         ++ (Explanation.execute start []).2
         ++ ["Invoker: ...doing something really important...";
             "Invoker: Does anybody want something done after I finish?"]
         ++ (Explanation.execute finish []).2).
Proof.
  unfold Explanation.doSomethingImportant, Explanation.setOnFinish,
    Explanation.setOnStart.
  cbn [Explanation.onStart Explanation.onFinish Explanation.isCommand
         Explanation.run_slot].
  unfold mbind, IO_bind, bind, console_log, ret.
  rewrite (execute_prints start). rewrite (execute_prints finish).
  by rewrite <- !app_assoc.
Qed.

(** A slot keeps the last command it was given: setting it again
    replaces the command, and the replaced one is never run.  For the
    sales department, where the driver sets [receiveItems] twice:
    [receiveABunchOfItems] then performs the second action only. *)
Lemma slot_keeps_last_command
    (this : Example.SalesDepartment)
    (first second : Example.AdministrativeAction) (out : console) :
  Example.receiveABunchOfItems
    (Example.setReceiveItems (Example.setReceiveItems this first) second) out
  = Example.performAdministrativeAction second out
  ∧ Example.sendItem
      (Example.setReceiveItems (Example.setReceiveItems this first) second)
    = Example.sendItem this.
Proof. split; reflexivity. Qed.

(** The two administrative actions only print and never throw.
    Receiving logs three header lines and then one line per item, in
    the order of the items; sending logs a header, one line per client
    action in order, the notification with the address, and two closing
    lines. *)
Theorem administrative_actions_log (out : console) :
  (∀ items,
     Example.performAdministrativeAction (Example.ReceiveItems items) out
     = (Return tt,
        out ++ ["Receiving items..."; "Items received."; "Adding items to DB."]
            ++ ((λ item, "Item: " +:+ item +:+ " has been added to the DB")
                  <$> items)))
  ∧ (∀ client actions address,
       Example.performAdministrativeAction
         (Example.SendItem client actions address) out
       = (Return tt,
          out ++ ["ComplexCommand: Complex stuff should be done by a client object."]
              ++ ((λ action, "Action: " +:+ action +:+ " has been performed")
                    <$> actions)
              ++ ["Client with address " +:+ address
                    +:+ " has been notified about the delivery";
                  "Sending Item...";
                  "Item has been sent to client: [object Object]"])).
Proof.
  split.
  - intros items. cbn [Example.performAdministrativeAction].
    rewrite !log_then, forEach_log. by rewrite <- !app_assoc.
  - intros client actions address. cbn [Example.performAdministrativeAction].
    unfold Example.performSpecificClientActions, Example.notifyAboutPackageDelivery.
    rewrite log_then, forEach_log_then, !log_then.
    unfold console_log. by rewrite <- !app_assoc.
Qed.

End CommandMore.

(** ** Ranges over the integers *)

Module IteratorMore.
Import Iterator IteratorSpec.


(** Between two safe integers, with a step that is not negative, every
    value of the progression is safe. *)
Lemma safe_between (start step : Z) (n : nat) :
  safe_integer start →
  safe_integer (start + Z.of_nat (S n) * step) →
  (0 ≤ step)%Z →
  safe_integer (start + step)
  ∧ safe_integer (start + step + Z.of_nat n * step).
Proof.
  unfold safe_integer. intros Hs Hlast Hstep.
  assert (0 ≤ Z.of_nat n * step)%Z by nia.
  split; split; nia.
Qed.


Lemma safe_small (x : Z) : (-1000 ≤ x ≤ 1000)%Z → safe_integer x.
Proof.
  intros Hx. unfold safe_integer, MAX_SAFE_INTEGER.
  assert (1000 ≤ 2 ^ 53 - 1)%Z by (by vm_compute). lia.
Qed.


(** For safe integers and a step that is not negative: if [n] is the
    first count for which [start + n * step] reaches [end], then a
    [for ... of] loop logs exactly the [n] values [start + step], ...,
    [start + n * step] and returns; in particular it logs nothing when
    [start >= end]. *)
Theorem for_of_logs_progression (start end_ step : Z) (n fuel : nat) (out : console) :
  safe_integer start →
  safe_integer end_ →
  safe_integer step →
  safe_integer (start + Z.of_nat n * step) →
  (0 ≤ step)%Z →
  n = 0 ∨ (start + (Z.of_nat n - 1) * step < end_)%Z →
  (end_ ≤ start + Z.of_nat n * step)%Z →
  n < fuel →
  for_of fuel pretty (iterator (range start end_ step)) out
  = (Return tt,
     out ++ ((λ i : nat, pretty (start + Z.of_nat i * step)%Z) <$> seq 1 n)).
Proof.
  intros Hstart Hsafe_end Hsafe_step Hlast Hstep. revert start fuel out Hstart Hlast.
  induction n as [| n IH]; intros start fuel out Hstart Hlast Hn Hend Hfuel.
  - destruct fuel as [| fuel]; [lia |].
    cbn [for_of]. unfold iterator, next, range.
    cbn [Iterator.start Iterator.end_ Iterator.step lt add Z_number].
    assert ((start <? end_)%Z = false) as -> by (apply Z.ltb_ge; lia).
    cbn. unfold ret. by rewrite app_nil_r.
  - destruct Hn as [Hn | Hn]; [discriminate |].
    destruct (safe_between start step n Hstart Hlast Hstep) as [Hnext Hlast'].
    destruct fuel as [| fuel]; [lia |].
    cbn [for_of]. unfold iterator, next, range.
    cbn [Iterator.start Iterator.end_ Iterator.step lt add Z_number].
    assert ((start <? end_)%Z = true) as -> by (apply Z.ltb_lt; nia).
    cbn [done value]. unfold mbind, IO_bind, bind, console_log.
    specialize (IH (start + step)%Z fuel (out ++ [pretty (start + step)%Z])
                  Hnext Hlast').
    unfold iterator, range in IH. etrans.
    { apply IH; [destruct n as [| n]; [by left | right]; nia | nia | lia]. }
    f_equal. rewrite <- app_assoc. f_equal. cbn [seq fmap list_fmap app].
    f_equal; [f_equal; lia |].
    rewrite <- (seq_shift n 1), <- list_fmap_compose.
    apply list_fmap_ext. intros _ i _. cbn. f_equal. lia.
Qed.

Lemma for_of_logs_progression_witness :
  safe_integer 0 ∧ safe_integer 7 ∧ safe_integer 5
  ∧ safe_integer (0 + Z.of_nat 2 * 5)
  ∧ (0 ≤ 5)%Z
  ∧ (0 + (Z.of_nat 2 - 1) * 5 < 7)%Z
  ∧ (7 ≤ 0 + Z.of_nat 2 * 5)%Z
  ∧ 2 < 3
  ∧ for_of 3 pretty (iterator (range 0%Z 7%Z 5%Z)) [] = (Return tt, ["5"; "10"]).
Proof.
  assert (safe_integer 0 ∧ safe_integer 7 ∧ safe_integer 5
          ∧ safe_integer (0 + Z.of_nat 2 * 5)) as (H0 & H7 & H5 & H10)
    by (repeat split; apply safe_small; lia).
  split; [exact H0 |]. split; [exact H7 |]. split; [exact H5 |].
  split; [exact H10 |].
  split; [lia |]. split; [lia |]. split; [lia |]. split; [lia |].
  rewrite (for_of_logs_progression 0 7 5 2 3 [] H0 H7 H5 H10);
    [reflexivity | lia | right; lia | lia | lia].
Defined.

(** With a step that is zero or negative and [start < end], the
    iterator never reports completion: every call yields a value with
    [done = false], and a [for ... of] loop over it exhausts every
    budget. *)
Theorem range_never_done_without_progress (start end_ step : Z) :
  (step ≤ 0)%Z →
  (start < end_)%Z →
  (∀ n, Forall (λ r, done r = false) (nexts n (range start end_ step)).1)
  ∧ (∀ fuel out, (for_of fuel pretty (iterator (range start end_ step)) out).1
                 = OutOfFuel).
Proof.
  intros Hstep Hlt. split.
  - intros n. revert start Hlt. induction n as [| n IH]; intros start Hlt.
    + constructor.
    + cbn [nexts]. unfold next, range.
      cbn [Iterator.start Iterator.end_ Iterator.step lt add Z_number].
      assert ((start <? end_)%Z = true) as -> by (apply Z.ltb_lt; lia).
      specialize (IH (start + step)%Z ltac:(lia)). unfold range in IH.
      destruct (nexts n _) as [rs this']. constructor; [reflexivity | exact IH].
  - intros fuel. revert start Hlt. induction fuel as [| fuel IH]; intros start Hlt out.
    + reflexivity.
    + cbn [for_of]. unfold iterator, next, range.
      cbn [Iterator.start Iterator.end_ Iterator.step lt add Z_number].
      assert ((start <? end_)%Z = true) as -> by (apply Z.ltb_lt; lia).
      cbn [done value]. unfold mbind, IO_bind, bind, console_log.
      specialize (IH (start + step)%Z ltac:(lia) (out ++ [pretty (start + step)%Z])).
      unfold iterator, range in IH.
      destruct (for_of fuel pretty _ _) as [[| |] out'] eqn:Hloop;
        cbn in IH; try discriminate. reflexivity.
Qed.

Lemma range_never_done_without_progress_witness :
  (0 ≤ 0)%Z
  ∧ (0 < 20)%Z
  ∧ (for_of 100 pretty (iterator (range 0%Z 20%Z 0%Z)) []).1 = OutOfFuel.
Proof.
  split; [lia |]. split; [lia |].
  apply (range_never_done_without_progress 0 20 0); lia.
Defined.

End IteratorMore.

(** ** The flyweight cache as a whole *)

Module FlyweightMore.
Import Flyweight.Explanation FlyweightSpec FlyweightInv.

Lemma populate_cons (state : list string) (rest : list (list string))
    (this : FlyweightFactory) :
  populate (state :: rest) this = populate rest (created state this).
Proof. reflexivity. Qed.

(** The two shapes of the factory after an unconditional assignment. *)
Lemma created_cases (state : list string) (this : FlyweightFactory) :
  (getKey state = "__proto__"
   ∧ created state this
     = mkFlyweightFactory (flyweights this) (Some (length (heap this)))
         (heap this ++ [mkFlyweight state]))
  ∨ (getKey state ≠ "__proto__"
     ∧ created state this
       = mkFlyweightFactory
           (<[getKey state := length (heap this)]> (flyweights this))
           (proto this)
           (heap this ++ [mkFlyweight state])).
Proof.
  unfold created, set, new_Flyweight. cbn [fst flyweights proto heap].
  destruct (String.eqb_spec (getKey state) "__proto__") as [Heq | Hne].
  - left. by split.
  - right. by split.
Qed.

Lemma inherited_mono (this this' : FlyweightFactory) (key : string) :
  (proto this' = proto this ∨ ∃ r, proto this' = Some r) →
  inherited this key = true → inherited this' key = true.
Proof.
  unfold inherited. intros [-> | [r ->]]; [done |].
  destruct (proto this); [done |].
  intros Hin. apply bool_decide_eq_true in Hin. apply bool_decide_eq_true.
  apply elem_of_app. by right.
Qed.

(** An assignment hides nothing that was visible and makes its own key
    visible. *)
Lemma created_has_mono (state : list string) (this : FlyweightFactory)
    (key : string) :
  has key this = true ∨ key = getKey state →
  has key (created state this) = true.
Proof.
  intros Hkey.
  destruct (created_cases state this) as [[Hproto ->] | [Hne ->]].
  - destruct Hkey as [Hkey | ->].
    + unfold has in *. cbn [flyweights].
      apply orb_true_iff in Hkey as [Hown | Hinh]; apply orb_true_iff;
        [by left | right].
      revert Hinh. apply inherited_mono. right. by eexists.
    + rewrite Hproto. apply FlyweightProps.has_proto.
  - unfold has in *. cbn [flyweights]. apply orb_true_iff.
    destruct Hkey as [Hkey | ->].
    + apply orb_true_iff in Hkey as [Hown | Hinh].
      * left. apply bool_decide_eq_true. apply bool_decide_eq_true in Hown.
        apply lookup_insert_is_Some.
        destruct (decide (getKey state = key)); [by left | by right].
      * right. revert Hinh. apply inherited_mono. by left.
    + left. apply bool_decide_eq_true. rewrite lookup_insert_eq. by eexists.
Qed.

Lemma populate_has (states : list (list string)) :
  ∀ (this : FlyweightFactory) (key : string),
    has key this = true ∨ (∃ state, state ∈ states ∧ key = getKey state) →
    has key (populate states this) = true.
Proof.
  induction states as [| state rest IH]; intros this key Hkey.
  - destruct Hkey as [Hkey | (state & Hin & _)]; [exact Hkey |].
    by apply elem_of_nil in Hin.
  - rewrite populate_cons. apply IH.
    destruct Hkey as [Hkey | (state' & Hin & ->)].
    + left. apply created_has_mono. by left.
    + apply elem_of_cons in Hin as [-> | Hin].
      * left. apply created_has_mono. by right.
      * right. by exists state'.
Qed.

(** Every state the factory was constructed with is found again: for
    each of them [getFlyweight] takes the reusing branch, creates
    nothing and leaves the factory as it is. *)
Theorem initial_states_are_reused (initialFlyweights : list (list string))
    (sharedState : list string) (out : console) :
  sharedState ∈ initialFlyweights →
  let factory := new_FlyweightFactory initialFlyweights in
  getFlyweight sharedState factory out
  = (Return (get (getKey sharedState) factory, factory),
     out ++ ["FlyweightFactory: Reusing existing flyweight."]).
Proof.
  intros Hin factory. rewrite FlyweightProps.getFlyweight_eq.
  assert (has (getKey sharedState) factory = true) as ->; [| reflexivity].
  apply populate_has. right. by exists sharedState.
Qed.

Lemma initial_states_are_reused_witness :
  (["BMW"; "M5"; "red"] ∈ [["BMW"; "M5"; "red"]; ["BMW"; "X6"; "white"]])
  ∧ getFlyweight ["BMW"; "M5"; "red"]
      (new_FlyweightFactory [["BMW"; "M5"; "red"]; ["BMW"; "X6"; "white"]]) []
    = (Return (Object 0,
               new_FlyweightFactory [["BMW"; "M5"; "red"]; ["BMW"; "X6"; "white"]]),
       ["FlyweightFactory: Reusing existing flyweight."]).
Proof.
  assert (["BMW"; "M5"; "red"] ∈ [["BMW"; "M5"; "red"]; ["BMW"; "X6"; "white"]])
    as Hin by constructor.
  split; [exact Hin |].
  rewrite (initial_states_are_reused _ _ [] Hin). reflexivity.
Defined.

Lemma populate_sizes (states : list (list string)) :
  ∀ this : FlyweightFactory,
    count (populate states this) ≤ count this + length states
    ∧ length (heap (populate states this)) = length (heap this) + length states.
Proof.
  induction states as [| state rest IH]; intros this.
  - cbn. lia.
  - rewrite populate_cons. destruct (IH (created state this)) as [Hcount Hheap].
    assert (count (created state this) ≤ S (count this)
            ∧ length (heap (created state this)) = S (length (heap this)))
      as [Hc Hh].
    { destruct (created_cases state this) as [[_ ->] | [_ ->]];
        unfold count; cbn [flyweights heap]; rewrite length_app; cbn.
      - lia.
      - split; [| lia].
        destruct (flyweights this !! getKey state) as [r |] eqn:Hr.
        + rewrite map_size_insert_Some by eauto. lia.
        + rewrite map_size_insert_None by exact Hr. lia. }
    cbn [length]. lia.
Qed.

(** The constructor allocates one flyweight per initial state but keeps
    at most one cache entry per key: the number of entries never
    exceeds the number of initial states, and is smaller as soon as two
    of them have the same key. *)
Theorem constructor_sizes (initialFlyweights : list (list string)) :
  length (heap (new_FlyweightFactory initialFlyweights))
  = length initialFlyweights
  ∧ count (new_FlyweightFactory initialFlyweights) ≤ length initialFlyweights
  ∧ (∀ state1 state2 rest,
       initialFlyweights = state1 :: state2 :: rest →
       getKey state1 = getKey state2 →
       count (new_FlyweightFactory initialFlyweights) < length initialFlyweights).
Proof.
  unfold new_FlyweightFactory.
  destruct (populate_sizes initialFlyweights (mkFlyweightFactory ∅ None []))
    as [Hcount Hheap].
  split; [exact Hheap |]. split; [exact Hcount |].
  intros state1 state2 rest -> Hkey.
  rewrite !populate_cons.
  set (this2 := created state2 (created state1 (mkFlyweightFactory ∅ None []))).
  destruct (populate_sizes rest this2) as [Hc _].
  assert (count this2 ≤ 1) as H2; [| cbn [length]; lia].
  subst this2.
  destruct (created_cases state1 (mkFlyweightFactory ∅ None []))
    as [[Hp1 ->] | [Hn1 ->]];
    match goal with
    | |- context [created state2 ?this] =>
        destruct (created_cases state2 this) as [[Hp2 ->] | [Hn2 ->]]
    end; unfold count; cbn [flyweights heap proto]; try congruence.
  - rewrite map_size_empty. lia.
  - rewrite <- Hkey, insert_insert_eq.
    rewrite map_size_insert_None by apply lookup_empty.
    rewrite map_size_empty. lia.
Qed.

Lemma constructor_sizes_witness :
  getKey ["a"; "b_c"] = getKey ["a_b"; "c"]
  ∧ length (heap (new_FlyweightFactory [["a"; "b_c"]; ["a_b"; "c"]])) = 2
  ∧ count (new_FlyweightFactory [["a"; "b_c"]; ["a_b"; "c"]]) < 2.
Proof.
  destruct (constructor_sizes [["a"; "b_c"]; ["a_b"; "c"]]) as (Hheap & _ & Hlt).
  split; [reflexivity |]. split; [exact Hheap |].
  apply (Hlt ["a"; "b_c"] ["a_b"; "c"] []); reflexivity.
Defined.

End FlyweightMore.

Module FlyweightCoherence.
Import Flyweight.Explanation FlyweightSpec FlyweightInv.

Lemma coherent_created (state : list string) (this : FlyweightFactory) :
  coherent this → coherent (created state this).
Proof.
  intros [Hentries Hproto].
  assert (∀ r f, heap this !! r = Some f →
            (heap this ++ [mkFlyweight state]) !! r = Some f) as Hold.
  { intros r f Hr. rewrite lookup_app_l; [exact Hr |].
    by apply lookup_lt_Some in Hr. }
  assert ((heap this ++ [mkFlyweight state]) !! length (heap this)
          = Some (mkFlyweight state)) as Hnew.
  { rewrite lookup_app_r by lia. by rewrite Nat.sub_diag. }
  destruct (FlyweightMore.created_cases state this) as [[Hp ->] | [Hne ->]];
    split; cbn [flyweights proto heap].
  - intros key r Hr. destruct (Hentries key r Hr) as (f & Hf & Hk). eauto.
  - intros r [= <-]. exists (mkFlyweight state). by split.
  - intros key r Hr. apply lookup_insert_Some in Hr as [[<- <-] | [_ Hr]].
    + exists (mkFlyweight state). by split.
    + destruct (Hentries key r Hr) as (f & Hf & Hk). eauto.
  - intros r Hr. destruct (Hproto r Hr) as (f & Hf & Hk). eauto.
Qed.

Lemma coherent_populate (states : list (list string)) :
  ∀ this, coherent this → coherent (populate states this).
Proof.
  induction states as [| state rest IH]; intros this Hthis; [exact Hthis |].
  rewrite FlyweightMore.populate_cons. apply IH. by apply coherent_created.
Qed.

Lemma coherent_get (this : FlyweightFactory) (key : string) (r : ref) :
  coherent this →
  get key this = Object r →
  ∃ f, heap this !! r = Some f ∧ getKey (sharedState f) = key.
Proof.
  intros [Hentries Hproto]. unfold get.
  destruct (flyweights this !! key) as [r' |] eqn:Hown.
  - intros [= <-]. by apply Hentries.
  - destruct (String.eqb_spec key "__proto__") as [-> | Hne].
    + destruct (proto this) as [r' |] eqn:Hp; [| discriminate].
      intros [= <-]. by apply Hproto.
    + destruct (inherited this key); discriminate.
Qed.

(** The cache stays coherent.  The constructor makes it so for any list
    of initial states, and every [getFlyweight] keeps it so.  Therefore
    whenever [getFlyweight] returns a flyweight, that flyweight exists
    and the key of the state it stores is the key of the state asked
    for (the states themselves may differ, the key function not being
    injective). *)
Theorem cache_stays_coherent :
  (∀ initialFlyweights, coherent (new_FlyweightFactory initialFlyweights))
  ∧ (∀ this requested out,
       coherent this →
       ∃ v this' out',
         getFlyweight requested this out = (Return (v, this'), out')
         ∧ coherent this'
         ∧ ∀ r, v = Object r →
             ∃ f, heap this' !! r = Some f
                  ∧ getKey (sharedState f) = getKey requested).
Proof.
  split.
  - intros initialFlyweights. apply coherent_populate.
    split; cbn [flyweights proto heap].
    + intros key r Hr. rewrite lookup_empty in Hr. discriminate.
    + discriminate.
  - intros this state out Hthis. rewrite FlyweightProps.getFlyweight_eq.
    destruct (has (getKey state) this).
    + eexists _, _, _. split; [reflexivity |]. split; [exact Hthis |].
      intros r Hr. by apply coherent_get.
    + eexists _, _, _. split; [reflexivity |].
      split; [by apply coherent_created |].
      intros r Hr. apply coherent_get; [by apply coherent_created | exact Hr].
Qed.

Lemma cache_stays_coherent_witness :
  coherent factory
  ∧ ∃ v this' out',
      getFlyweight ["BMW"; "X1"; "red"] factory [] = (Return (v, this'), out')
      ∧ coherent this'
      ∧ ∀ r, v = Object r →
          ∃ f, heap this' !! r = Some f
               ∧ getKey (sharedState f) = getKey ["BMW"; "X1"; "red"].
Proof.
  destruct cache_stays_coherent as [Hnew Hkeep].
  assert (coherent factory) as Hf by apply Hnew.
  split; [exact Hf |]. by apply Hkeep.
Defined.

(** A run of [getFlyweight] calls returns, one value per call, and only
    ever appends: the flyweights that existed are still there,
    unchanged and at the same place; every cache entry still refers to
    the same flyweight; the prototype is the same; and at most one
    flyweight per call was allocated. *)
Theorem run_only_appends (states : list (list string)) :
  ∀ (this : FlyweightFactory) (out : console),
    ∃ vs this' out',
      requests states this out = (Return (vs, this'), out')
      ∧ length vs = length states
      ∧ heap this `prefix_of` heap this'
      ∧ length (heap this') ≤ length (heap this) + length states
      ∧ (∀ key r, flyweights this !! key = Some r →
                  flyweights this' !! key = Some r)
      ∧ proto this' = proto this.
Proof.
  induction states as [| state rest IH]; intros this out.
  - exists [], this, out. cbn. repeat split; try done. lia.
  - assert (∃ v this1 out1,
              getFlyweight state this out = (Return (v, this1), out1)
              ∧ heap this `prefix_of` heap this1
              ∧ length (heap this1) ≤ S (length (heap this))
              ∧ (∀ key r, flyweights this !! key = Some r →
                          flyweights this1 !! key = Some r)
              ∧ proto this1 = proto this)
      as (v & this1 & out1 & Hcall & Hpre1 & Hlen1 & Hkeep1 & Hproto1).
    { rewrite FlyweightProps.getFlyweight_eq.
      destruct (has (getKey state) this) eqn:Hhas.
      - eexists _, _, _. split; [reflexivity |]. repeat split; try done. lia.
      - eexists _, _, _. split; [reflexivity |].
        rewrite (FlyweightProps.created_eq _ _ Hhas). cbn [heap flyweights proto].
        split; [by apply prefix_app_r |].
        split; [rewrite length_app; cbn; lia |].
        split; [| reflexivity].
        intros key r Hr. rewrite lookup_insert_ne; [exact Hr |].
        intros <-. rewrite (FlyweightProps.not_has_lookup _ _ Hhas) in Hr.
        discriminate. }
    destruct (IH this1 out1)
      as (vs & this2 & out2 & Hrest & Hlen & Hpre2 & Hlen2 & Hkeep2 & Hproto2).
    exists (v :: vs), this2, out2.
    split.
    { cbn [requests]. unfold mbind, IO_bind, bind. rewrite Hcall.
      cbn. unfold bind. rewrite Hrest. reflexivity. }
    split; [cbn; lia |].
    split; [by etrans |].
    split; [cbn [length]; lia |].
    split; [intros key r Hr; by apply Hkeep2, Hkeep1 | congruence].
Qed.

End FlyweightCoherence.

(** ** The key function *)

Module KeyFunction.
Import Flyweight.Explanation FlyweightInv.

Lemma append_nil_l (s : string) : "" +:+ s = s.
Proof. reflexivity. Qed.

Lemma append_cons (c : ascii) (a s : string) :
  String c a +:+ s = String c (a +:+ s).
Proof. reflexivity. Qed.

Lemma underscore_free_app (a b : string) :
  underscore_free (a +:+ b) = underscore_free a && underscore_free b.
Proof.
  induction a as [| c a IH]; [reflexivity |].
  rewrite append_cons. cbn [underscore_free]. rewrite IH. by rewrite andb_assoc.
Qed.

(** Two strings that agree after a first underscore-free part and a
    separator agree part by part. *)
Lemma split_at_separator (x y r r' : string) :
  underscore_free x = true →
  underscore_free y = true →
  x +:+ "_" +:+ r = y +:+ "_" +:+ r' →
  x = y ∧ r = r'.
Proof.
  revert y. induction x as [| c x IH]; intros [| d y] Hx Hy Heq;
    repeat rewrite ?append_cons, ?append_nil_l in Heq;
    cbn [underscore_free] in Hx, Hy.
  - injection Heq as ->. by split.
  - injection Heq as <- _. cbn in Hy. discriminate.
  - injection Heq as -> _. cbn in Hx. discriminate.
  - injection Heq as -> Heq.
    apply andb_true_iff in Hx as [_ Hx]. apply andb_true_iff in Hy as [_ Hy].
    assert (x +:+ "_" +:+ r = y +:+ "_" +:+ r') as Heq'
      by (by rewrite ?append_cons, ?append_nil_l).
    destruct (IH y Hx Hy Heq') as [-> ->]. by split.
Qed.

Lemma join_two (x y : string) (l : list string) :
  join "_" (x :: y :: l) = x +:+ "_" +:+ join "_" (y :: l).
Proof. reflexivity. Qed.

Lemma not_underscore_free_join (x y : string) (l : list string) :
  underscore_free (join "_" (x :: y :: l)) = false.
Proof.
  rewrite join_two, underscore_free_app, append_cons. cbn [underscore_free].
  cbn. by rewrite andb_false_r.
Qed.

(** [getKey] tells apart any two arrays that are not empty and whose
    components contain no underscore: on such arrays equal keys mean
    equal arrays.  Both conditions are needed: components with an
    underscore collide, and the empty array has the key of the array
    holding one empty string. *)
Theorem getKey_injective_without_underscore (state1 state2 : list string) :
  state1 ≠ [] →
  state2 ≠ [] →
  Forall (λ s, underscore_free s = true) state1 →
  Forall (λ s, underscore_free s = true) state2 →
  getKey state1 = getKey state2 →
  state1 = state2.
Proof.
  unfold getKey. revert state2.
  induction state1 as [| x [| x' l1] IH]; intros [| y [| y' l2]] H1 H2 Hf1 Hf2 Heq;
    try done.
  - cbn in Heq. by subst.
  - exfalso. apply Forall_cons in Hf1 as [Hx _].
    change (join "_" [x]) with x in Heq. rewrite Heq in Hx.
    by rewrite not_underscore_free_join in Hx.
  - exfalso. apply Forall_cons in Hf2 as [Hy _].
    change (join "_" [y]) with y in Heq. rewrite <- Heq in Hy.
    by rewrite not_underscore_free_join in Hy.
  - rewrite !join_two in Heq.
    apply Forall_cons in Hf1 as [Hx Hf1]. apply Forall_cons in Hf2 as [Hy Hf2].
    destruct (split_at_separator _ _ _ _ Hx Hy Heq) as [-> Hrest].
    f_equal. by apply IH.
Qed.

Lemma getKey_injective_without_underscore_witness :
  getKey [] = getKey [""]
  ∧ Forall (λ s, underscore_free s = true) ["BMW"; "X1"; "red"]
  ∧ (getKey ["BMW"; "X1"; "red"] = getKey ["BMW"; "X1"; "red"] →
     ["BMW"; "X1"; "red"] = ["BMW"; "X1"; "red"]).
Proof.
  assert (Forall (λ s, underscore_free s = true) ["BMW"; "X1"; "red"]) as Hf
    by (repeat constructor).
  split; [reflexivity |]. split; [exact Hf |].
  by apply getKey_injective_without_underscore.
Defined.

End KeyFunction.

(** ** Builder *)

Module BuilderMore.
Import Builder BuilderSpec.

Lemma fluent_cons (s : step) (steps : list step) (h : Hamburger) :
  fluent (s :: steps) h = fluent steps (call h s).
Proof. reflexivity. Qed.

Lemma fluent_fields (steps : list step) :
  ∀ h : Hamburger,
    bread (fluent steps h) = bread h
    ∧ ketchup (fluent steps h)
      = (if decide (AddKetchup ∈ steps) then Some true else ketchup h)
    ∧ mustard (fluent steps h)
      = (if decide (AddMustard ∈ steps) then Some true else mustard h)
    ∧ doubleMeat (fluent steps h)
      = (if decide (AddDoubleMeat ∈ steps) then Some true else doubleMeat h).
Proof.
  induction steps as [| s steps IH]; intros h.
  - repeat split; case_decide as Hin; try reflexivity; by apply elem_of_nil in Hin.
  - rewrite fluent_cons. destruct (IH (call h s)) as (Hb & Hk & Hm & Hd).
    rewrite Hb, Hk, Hm, Hd. clear.
    repeat split; destruct s; cbn [call addKetchup addMustard addDoubleMeat
                                     bread ketchup mustard doubleMeat];
      repeat case_decide; try reflexivity;
      repeat match goal with
        | H : _ ∈ _ :: _ |- _ => apply elem_of_cons in H as [H | H]; try discriminate
        | H : ¬ _ ∈ _ :: _ |- _ => rewrite elem_of_cons in H
        end; try tauto; exfalso; tauto.
Qed.

(** A fluent chain of [add...] calls never touches the bread, turns on
    exactly the ingredients that were added at least once and leaves
    the others as they were.  So the result does not depend on the
    order of the calls nor on how often a call is repeated: two chains
    that add the same ingredients build the same hamburger. *)
Theorem fluent_chain_result (steps1 steps2 : list step) (h : Hamburger) :
  (bread (fluent steps1 h) = bread h
   ∧ ketchup (fluent steps1 h)
     = (if decide (AddKetchup ∈ steps1) then Some true else ketchup h)
   ∧ mustard (fluent steps1 h)
     = (if decide (AddMustard ∈ steps1) then Some true else mustard h)
   ∧ doubleMeat (fluent steps1 h)
     = (if decide (AddDoubleMeat ∈ steps1) then Some true else doubleMeat h))
  ∧ ((∀ s, s ∈ steps1 ↔ s ∈ steps2) → fluent steps1 h = fluent steps2 h).
Proof.
  split; [apply fluent_fields |].
  intros Hsame.
  destruct (fluent_fields steps1 h) as (Hb1 & Hk1 & Hm1 & Hd1).
  destruct (fluent_fields steps2 h) as (Hb2 & Hk2 & Hm2 & Hd2).
  destruct (fluent steps1 h) as [b1 k1 m1 d1], (fluent steps2 h) as [b2 k2 m2 d2].
  cbn [bread ketchup mustard doubleMeat] in *. subst.
  f_equal; repeat case_decide; try reflexivity; exfalso;
    match goal with
    | Hin : ?s ∈ _, Hout : ¬ ?s ∈ _ |- _ => apply Hout, Hsame, Hin
    end.
Qed.

Lemma fluent_chain_result_witness :
  (∀ s, s ∈ [AddKetchup; AddMustard; AddDoubleMeat]
        ↔ s ∈ [AddDoubleMeat; AddKetchup; AddKetchup; AddMustard])
  ∧ fluent [AddDoubleMeat; AddKetchup; AddKetchup; AddMustard]
      (new_Hamburger "Some Bread")
    = lunch.
Proof.
  assert (∀ s, s ∈ [AddKetchup; AddMustard; AddDoubleMeat]
               ↔ s ∈ [AddDoubleMeat; AddKetchup; AddKetchup; AddMustard]) as Hsame.
  { intros s. rewrite !elem_of_cons, !elem_of_nil.
    destruct s; split; intros _; repeat first [left; reflexivity | right]. }
  split; [exact Hsame |].
  symmetry.
  apply (fluent_chain_result [AddKetchup; AddMustard; AddDoubleMeat]
           [AddDoubleMeat; AddKetchup; AddKetchup; AddMustard]
           (new_Hamburger "Some Bread")).
  exact Hsame.
Defined.

End BuilderMore.

(** ** Visitor *)

Module VisitorMore.
Import Visitor VisitorSpec.

(** [clientCode] visits every component exactly once and in the order
    of the array: it logs one line per component, which names the
    component's class (through the letter its own method returns) and
    the visitor, and returns.  This holds for every array of components
    and both visitors. *)
Theorem clientCode_visits_each_once (components : list Explanation.Component)
    (visitor : Explanation.Visitor) (out : console) :
  Explanation.clientCode components visitor out
  = (Return tt,
     out ++ ((λ c, letter c +:+ " + " +:+ visitor_name visitor) <$> components)).
Proof.
  unfold Explanation.clientCode. revert out.
  induction components as [| c components IH]; intros out.
  - cbn. unfold ret. by rewrite app_nil_r.
  - cbn [forEach fmap list_fmap]. unfold mbind, IO_bind, bind.
    assert (Explanation.accept c visitor out
            = (Return tt, out ++ [letter c +:+ " + " +:+ visitor_name visitor]))
      as -> by (destruct c, visitor; reflexivity).
    rewrite IH. by rewrite <- app_assoc.
Qed.

(** In the car assembly example the integration machines drop the
    strings the sub-machines build: [carMakerClientCode] returns
    without printing anything, whatever the machines and the brand. *)
Theorem carMakerClientCode_is_silent
    (machines : list Example.CarAssemblyLineMachine)
    (brand : Example.PartIntegrationMachine) (out : console) :
  Example.carMakerClientCode machines brand out = (Return tt, out).
Proof.
  unfold Example.carMakerClientCode. revert out.
  induction machines as [| m machines IH]; intros out; [reflexivity |].
  cbn [forEach]. unfold mbind, IO_bind, bind.
  assert (Example.addParts m brand out = (Return tt, out)) as ->
    by (destruct m, brand; reflexivity).
  apply IH.
Qed.

End VisitorMore.

(** ** Adapter *)

Module AdapterMore.
Import Adapter.Explanation.

Lemma split_chars (s : string) :
  split s = (λ c, String c EmptyString) <$> String.list_ascii_of_string s.
Proof. induction s as [| c s IH]; cbn; [reflexivity | by rewrite IH]. Qed.

Lemma join_chars (cs : list ascii) :
  join "" ((λ c, String c EmptyString) <$> cs) = String.string_of_list_ascii cs.
Proof.
  unfold join. induction cs as [| c [| d cs] IH]; [reflexivity | reflexivity |].
  change (Flyweight.Explanation.join ""
            ((λ c, String c EmptyString) <$> c :: d :: cs))
    with (String c (Flyweight.Explanation.join ""
                      ((λ c, String c EmptyString) <$> d :: cs))).
  rewrite IH. reflexivity.
Qed.

(** [s.split('').reverse().join('')] reverses the characters. *)
Lemma reverse_chars (s : string) :
  join "" (rev (split s)) = String.string_of_list_ascii (rev (String.list_ascii_of_string s)).
Proof.
  rewrite split_chars. change (@fmap list _) with (@map) at 1.
  rewrite <- map_rev. apply join_chars.
Qed.

Lemma length_chars (s : string) :
  String.length s = length (String.list_ascii_of_string s).
Proof. induction s as [| c s IH]; cbn; [reflexivity | by rewrite IH]. Qed.

(** For every adaptee the adapter answers with the adaptee's text
    reversed character by character, behind its prefix.  Reversing is
    its own inverse: adapting an adaptee that answers with the reversed
    text gives the original text back.  The text keeps its length. *)
Theorem adapter_reverses (adaptee : Adaptee) :
  let result := join "" (rev (split (specificRequest adaptee))) in
  request (new_Adapter adaptee) = "Adapter: (TRANSLATED) " +:+ result
  ∧ String.list_ascii_of_string result = rev (String.list_ascii_of_string (specificRequest adaptee))
  ∧ String.length result = String.length (specificRequest adaptee)
  ∧ request (new_Adapter (mkAdaptee result))
    = "Adapter: (TRANSLATED) " +:+ specificRequest adaptee.
Proof.
  intros result. subst result. cbn [request specificRequest].
  rewrite !reverse_chars, !String.list_ascii_of_string_of_list_ascii.
  split; [reflexivity |]. split; [reflexivity |]. split.
  - rewrite !length_chars, String.list_ascii_of_string_of_list_ascii.
    apply length_rev.
  - by rewrite rev_involutive, String.string_of_list_ascii_of_string.
Qed.

(** The driver's adaptee. *)
Lemma adapter_output :
  clientCode (new_Adapter new_Adaptee) []
  = (Return tt, ["Adapter: (TRANSLATED) Special behavior of the Adaptee."]).
Proof. reflexivity. Qed.

End AdapterMore.

(** ** Exhausted iterators, for any numbers *)

Module IteratorGeneric.
Import Iterator.

Section Numbers.
Context `{JSNumber}.

(** Exhaustion is permanent, for every range and every kind of number:
    once a call of [next] has reported [done], every later call reports
    [done] again, with the value [end], and the iterator does not
    change; it cannot be restarted. *)
Theorem exhaustion_is_permanent (this : Range) (n : nat) :
  done (next this).1 = true →
  nexts n this = (replicate n (mkResult (end_ this) true), this).
Proof.
  intros Hdone. apply IteratorProps.nexts_exhausted.
  unfold next in Hdone. destruct (lt (start this) (end_ this)); [discriminate | reflexivity].
Qed.

End Numbers.

Lemma exhaustion_is_permanent_witness :
  let this := (nexts 2 (range 0%Z 7%Z 5%Z)).2 in
  done (next this).1 = true
  ∧ nexts 3 this
    = ([mkResult 7%Z true; mkResult 7%Z true; mkResult 7%Z true],
       mkRange 10%Z 7%Z 5%Z).
Proof.
  intros this. split; [reflexivity |].
  apply (exhaustion_is_permanent this 3). reflexivity.
Defined.

End IteratorGeneric.

(** ** Proxy *)

Module ProxyMore.
Import Proxy.

(** Writing through the proxy and reading back: for every key other
    than ['__proto__'], a [set] followed by a [get] of the same key
    gives the value written, the write answers [true], the target
    itself holds the value, every other key reads as before, and each
    access logs its one line. *)
Theorem set_then_get (t : gmap string string) (key value : string) (out : console) :
  key ≠ "__proto__" →
  ∃ t',
    set t key value out = (Return (true, t'), out ++ ["Updating..."])
    ∧ get t' key (out ++ ["Updating..."])
      = (Return (Str value), out ++ ["Updating..."; "Tracking:  " +:+ key])
    ∧ t' !! key = Some value
    ∧ ∀ other, other ≠ key → read t' other = read t other.
Proof.
  intros Hkey. exists (<[key := value]> t).
  assert (String.eqb key "__proto__" = false) as Hneq
    by (by apply String.eqb_neq).
  split.
  { unfold set, Reflect_set. rewrite Hneq. reflexivity. }
  split.
  { unfold get, read, mbind, IO_bind, bind, console_log. cbn.
    rewrite lookup_insert_eq. unfold ret. by rewrite <- app_assoc. }
  split; [apply lookup_insert_eq |].
  intros other Hother. unfold read. by rewrite lookup_insert_ne.
Qed.

Lemma set_then_get_witness :
  "name" ≠ "__proto__"
  ∧ ∃ t',
      set originalObject "name" "Someone Else" []
      = (Return (true, t'), ["Updating..."])
      ∧ get t' "name" ["Updating..."]
        = (Return (Str "Someone Else"), ["Updating..."; "Tracking:  name"])
      ∧ t' !! "name" = Some "Someone Else".
Proof.
  split; [discriminate |].
  destruct (set_then_get originalObject "name" "Someone Else" [])
    as (t' & Hset & Hget & Hown & _); [discriminate |].
  exists t'. split; [exact Hset |]. split; [exact Hget | exact Hown].
Defined.

(** A read through the proxy never changes the target and gives what
    the target holds: an own string, what [Object.prototype] holds
    under that name, or [undefined] for a name found nowhere; a write
    to ['__proto__'] changes nothing. *)
Lemma get_is_transparent (t : gmap string string) (key : string) (out : console) :
  get t key out = (Return (read t key), out ++ ["Tracking:  " +:+ key])
  ∧ (read t key = Undefined
     ↔ t !! key = None ∧ key ∉ Flyweight.Explanation.Object_prototype)
  ∧ (∀ value, set t "__proto__" value out = (Return (true, t), out ++ ["Updating..."])).
Proof.
  split; [reflexivity |]. split; [| reflexivity].
  unfold read. destruct (t !! key) as [s |].
  - split; [discriminate | intros [? _]; discriminate].
  - case_bool_decide as Hin.
    + split; [discriminate | intros [_ Hout]; contradiction].
    + split; [by split | reflexivity].
Qed.

End ProxyMore.

(** ** Singleton: runs of client code *)

Module SingletonMore.
Import Singleton SingletonSpec.

Lemma getInstance_heap (σ : state) :
  heap σ `prefix_of` heap (getInstance σ).2
  ∧ length (heap (getInstance σ).2)
    = length (heap σ) + match instance σ with Some _ => 0 | None => 1 end.
Proof.
  unfold getInstance. destruct (instance σ); cbn.
  - split; [done | lia].
  - split; [by apply prefix_app_r | rewrite length_app; cbn; lia].
Qed.

Lemma writes_none (actions : list action) :
  writes actions = 0 → actions = replicate (length actions) Call.
Proof.
  induction actions as [| [| v] actions IH]; cbn; intros Hw;
    [reflexivity | by rewrite <- IH | discriminate].
Qed.

(** Objects are constructed by [getInstance] only, and only when it
    finds the field empty: over any run of calls and assignments, from
    any state, the objects that existed stay as they are and the
    number of objects constructed is at most the number of assignments
    to the field, plus one if the field was empty at the start.  With
    no assignment, therefore, at most one object is ever constructed
    and all calls return the same reference. *)
Theorem instances_bounded_by_writes (actions : list action) (σ : state) :
  heap σ `prefix_of` heap (run actions σ).2
  ∧ length (heap (run actions σ).2)
    ≤ length (heap σ) + match instance σ with Some _ => 0 | None => 1 end + writes actions
  ∧ (writes actions = 0 →
     ∀ i j ri rj,
       (run actions σ).1 !! i = Some ri →
       (run actions σ).1 !! j = Some rj →
       ri = rj).
Proof.
  split; [| split].
  - revert σ. induction actions as [| [| v] actions IH]; intros σ; cbn [run].
    + done.
    + destruct (getInstance_heap σ) as [Hpre _].
      destruct (getInstance σ) as [r σ']. cbn [snd] in Hpre.
      specialize (IH σ'). destruct (run actions σ') as [rs σ''].
      cbn [snd] in *. by etrans.
    + exact (IH (mkState v (heap σ))).
  - revert σ. induction actions as [| [| v] actions IH]; intros σ; cbn [run writes].
    + cbn. lia.
    + destruct (getInstance_heap σ) as [_ Hlen].
      pose proof (SingletonProps.getInstance_sets σ) as Hset.
      destruct (getInstance σ) as [r σ']. cbn [fst snd] in Hlen, Hset.
      specialize (IH σ'). rewrite Hset in IH.
      destruct (run actions σ') as [rs σ'']. cbn [snd] in *. lia.
    + specialize (IH (mkState v (heap σ))). cbn [heap instance] in IH.
      destruct v; lia.
  - intros Hw i j ri rj. rewrite (writes_none actions Hw).
    destruct (length actions) as [| n]; cbn [replicate run].
    + intros Hi. cbn in Hi. discriminate.
    + pose proof (SingletonProps.getInstance_sets σ) as Hset.
      destruct (getInstance σ) as [r σ']. cbn [fst snd] in Hset.
      rewrite (SingletonProps.run_calls_cached n σ' r Hset). cbn [fst].
      change (r :: replicate n r) with (replicate (S n) r).
      intros Hi Hj.
      apply lookup_replicate in Hi as [-> _].
      apply lookup_replicate in Hj as [-> _]. reflexivity.
Qed.

Lemma instances_bounded_by_writes_witness :
  writes [Call; Call; Call] = 0
  ∧ (run [Call; Call; Call] initial).1 !! 0 = Some 0
  ∧ (run [Call; Call; Call] initial).1 !! 2 = Some 0
  ∧ length (heap (run [Call; Call; Call] initial).2) ≤ 1.
Proof.
  destruct (instances_bounded_by_writes [Call; Call; Call] initial)
    as (_ & Hlen & _).
  split; [reflexivity |]. split; [reflexivity |]. split; [reflexivity |].
  exact Hlen.
Defined.

End SingletonMore.
